(** * Kademlia routing table and lookup of [kademlia.py]: model and properties

    A shallow embedding of the routing and lookup engine of the Kademlia peer
    in [src/kademlia.py]: the 160-bit [ID] with its XOR distance, [KBucket]
    and [BucketList] with the split of a full bucket, the inbound handlers of
    [Node], and the parts of [Router] that seed and extend the closer and
    further contact lists.

    Python integers are [Z]; lists are [list]; an exception is a value of
    [exn] and a method that can raise returns a [result].  A method that
    mutates its object returns the new object, also when it raises: what was
    mutated before the [raise] stays mutated. *)

From Stdlib Require Import ZArith List Lia Bool Ascii String Permutation Sorted.
From Stdlib Require Import Zbitwise.
From stdpp Require Import base option list sorting gmap.
Import ListNotations.

Local Open Scope Z_scope.

(** ** Exceptions *)

(** The exception classes of the module, and the built-in ones its code can
    raise. *)
Inductive exn : Type :=
| TooManyContactsError
| OutOfRangeError
| OurNodeCannotBeAContactError
| AllKBucketsAreEmptyError
| SendingQueryToSelfError
| SenderIsSelfError
| ValueError
| IndexError
| TypeError
| NameError
| AttributeError
| StatisticsError
| RecursionError.

Inductive result (A : Type) : Type :=
| Ok (a : A)
| Raise (e : exn).
Arguments Ok {A} a.
Arguments Raise {A} e.

Definition bind {A B : Type} (r : result A) (k : A -> result B) : result B :=
  match r with
  | Ok a => k a
  | Raise e => Raise e
  end.

Notation "'let*' x ':=' r 'in' k" := (bind r (fun x => k))
  (at level 10, x pattern, r at level 100, k at level 200).

(** ** Python built-ins used by the module *)

Module Py.

(** [l[i]] for a Python list: a negative index counts from the end, and an
    index outside [-len, len) raises [IndexError]. *)
Definition resolve (len : nat) (i : Z) : option nat :=
  if (0 <=? i) && (i <? Z.of_nat len) then Some (Z.to_nat i)
  else if (i <? 0) && (- Z.of_nat len <=? i) then Some (Z.to_nat (Z.of_nat len + i))
  else None.

Definition getitem {A : Type} (l : list A) (i : Z) : result A :=
  match resolve (length l) i with
  | Some n => match nth_error l n with Some x => Ok x | None => Raise IndexError end
  | None => Raise IndexError
  end.

(** [l[i] = x]. *)
Definition setitem {A : Type} (l : list A) (i : Z) (x : A) : result (list A) :=
  match resolve (length l) i with
  | Some n => Ok (firstn n l ++ x :: skipn (S n) l)
  | None => Raise IndexError
  end.

(** [l.insert(i, x)]: never raises; the position is clamped to [0, len]
    after a negative index was counted from the end. *)
Definition insert {A : Type} (l : list A) (i : Z) (x : A) : list A :=
  let len := Z.of_nat (length l) in
  let p := if i <? 0 then Z.max 0 (len + i) else Z.min i len in
  firstn (Z.to_nat p) l ++ x :: skipn (Z.to_nat p) l.

(** [sorted(l, key=key)]: the sort is stable, elements of equal key keep
    their order.  Insertion from the right, each element going in front of
    the first element whose key is not smaller. *)
Fixpoint insert_sorted {A : Type} (key : A -> Z) (x : A) (l : list A) : list A :=
  match l with
  | [] => [x]
  | y :: l' => if key x <=? key y then x :: y :: l' else y :: insert_sorted key x l'
  end.

Fixpoint sorted {A : Type} (key : A -> Z) (l : list A) : list A :=
  match l with
  | [] => []
  | x :: l' => insert_sorted key x (sorted key l')
  end.

(** [statistics.median_high(data)]: the element at index [n // 2] of the
    sorted data, [StatisticsError] on no data. *)
Definition median_high (data : list Z) : result Z :=
  let data := sorted (fun z => z) data in
  let n := length data in
  if Nat.eqb n 0 then Raise StatisticsError
  else Ok (nth (Nat.div n 2) data 0).

(** [bin(v)]: the binary digits of [v], most significant first, after the
    tag ["0b"]. *)
Fixpoint pos_digits (p : positive) : list ascii :=
  match p with
  | xH => ["1"%char]
  | xO p' => pos_digits p' ++ ["0"%char]
  | xI p' => pos_digits p' ++ ["1"%char]
  end.

Definition bin (v : Z) : list ascii :=
  match v with
  | Z0 => ["0"; "b"; "0"]%char
  | Zpos p => ["0"; "b"]%char ++ pos_digits p
  | Zneg p => ["-"; "0"; "b"]%char ++ pos_digits p
  end.

End Py.

(** ** Constants *)

Module Constants.
Definition K : Z := 20.
Definition B : Z := 160.
Definition A : Z := 3.
Definition EXPIRATION_TIME_SEC : Z := 86400.
End Constants.

Definition DEBUG : bool := true.

(** ** ID *)

Module ID.

Definition MAX_ID : Z := 2 ^ 160.
Definition MIN_ID : Z := 0.

(** An [ID] object holds the integer [value]; the model uses the integer. *)
Definition t : Type := Z.

(** The check of [ID.__init__]. *)
Definition valid (value : Z) : Prop := MIN_ID <= value < MAX_ID.

Definition init (value : Z) : result t :=
  if negb ((value <? MAX_ID) && (MIN_ID <=? value)) then Raise ValueError
  else Ok value.

(** [ID.bin]: the digits without the tag. *)
Definition bin (self : t) : list ascii := skipn 2 (Py.bin self).

(** [ID.__xor__]. *)
Definition xor (self val : t) : Z := Z.lxor self val.

(** [ID.__eq__]. *)
Definition eq (self val : t) : bool := self =? val.

Definition max : Z := 2 ^ 160 - 1.
Definition mid : Z := 2 ^ 159.
Definition min : Z := 0.

End ID.

(** ** Contact *)

(** The protocol handle of a contact: the virtual protocol of the module,
    which answers or not. *)
Record VirtualProtocol : Type := mkVirtualProtocol { responds : bool }.

Module Contact.

(** [last_seen] is a time stamp; the clock is read as an integer. *)
Record t : Type := mk {
  id : ID.t;
  protocol : option VirtualProtocol;
  last_seen : Z
}.

(** [Contact.touch], at the time [now]. *)
Definition touch (now : Z) (self : t) : t :=
  {| id := id self; protocol := protocol self; last_seen := now |}.

End Contact.

(** ** KBucket *)

Module KBucket.

Record t : Type := mk {
  contacts : list Contact.t;
  _low : Z;
  _high : Z
}.

(** [KBucket()]: no contacts, the whole range. *)
Definition init : t := {| contacts := []; _low := 0; _high := 2 ^ 160 |}.

Definition low (self : t) : Z := _low self.
Definition high (self : t) : Z := _high self.

Definition is_full (self : t) : bool :=
  Constants.K <=? Z.of_nat (length (contacts self)).

Definition contains (self : t) (id : ID.t) : bool :=
  existsb (fun contact => ID.eq id (Contact.id contact)) (contacts self).

Definition is_in_range (self : t) (other_id : ID.t) : bool :=
  (_low self <=? other_id) && (other_id <=? _high self).

Definition add_contact (self : t) (contact : Contact.t) : result t :=
  if is_full self then Raise TooManyContactsError
  else if negb (is_in_range self (Contact.id contact)) then Raise OutOfRangeError
  else Ok {| contacts := contacts self ++ [contact];
             _low := _low self; _high := _high self |}.

(** The loop of [longest_shared_prefix_str] over [range(len(b))]: the first
    index at which the two strings differ. *)
Fixpoint first_mismatch (a b : list ascii) (i : nat) : option nat :=
  match b with
  | [] => None
  | y :: b' =>
      match a with
      | x :: a' => if Ascii.eqb x y then first_mismatch a' b' (S i) else Some i
      | [] => None
      end
  end.

Definition longest_shared_prefix_str (a b : list ascii) : list ascii :=
  let '(a, b) := if (length a <? length b)%nat then (b, a) else (a, b) in
  match first_mismatch a b 0 with
  | Some i => firstn i a
  | None => b
  end.

(** [shared_bits]: the digits of the first contact from the third one on,
    then folded with those of every other contact. *)
Definition shared_bits (self : t) : result (list ascii) :=
  let* c0 := Py.getitem (contacts self) 0 in
  let longest_prefix := skipn 2 (ID.bin (Contact.id c0)) in
  Ok (fold_left
        (fun longest_prefix contact =>
           let id_bin := skipn 2 (ID.bin (Contact.id contact)) in
           longest_shared_prefix_str id_bin longest_prefix)
        (skipn 1 (contacts self)) longest_prefix).

Definition depth (self : t) : result Z :=
  let* bits := shared_bits self in
  Ok (Z.of_nat (length bits)).

(** [split]: the two children are created empty over [low, m] and
    [m, high], then every contact is added to one of them with
    [add_contact], which can raise. *)
Definition split (self : t) : result (t * t) :=
  let contact_ids_asc := Py.sorted (fun z => z) (map Contact.id (contacts self)) in
  let* midpoint := Py.median_high contact_ids_asc in
  let k1 := {| contacts := []; _low := _low self; _high := midpoint |} in
  let k2 := {| contacts := []; _low := midpoint; _high := _high self |} in
  fold_left
    (fun acc c =>
       let* (k1, k2) := acc in
       if Contact.id c <? midpoint
       then let* k1' := add_contact k1 c in Ok (k1', k2)
       else let* k2' := add_contact k2 c in Ok (k1, k2'))
    (contacts self) (Ok (k1, k2)).

(** [list.index] on the IDs, compared with [ID.__eq__]. *)
Fixpoint index (ids : list ID.t) (x : ID.t) : option nat :=
  match ids with
  | [] => None
  | y :: ids' => if ID.eq y x then Some O else option_map S (index ids' x)
  end.

(** [replace_contact]: the entry at the index of the ID is assigned, then the
    contact is touched.  Contacts are values here: an entry elsewhere in the
    list that is the very object passed would be touched with it. *)
Definition replace_contact (now : Z) (self : t) (contact : Contact.t) : result t :=
  let contact_ids := map Contact.id (contacts self) in
  match index contact_ids (Contact.id contact) with
  | None => Raise ValueError
  | Some i =>
      Ok {| contacts := firstn i (contacts self)
                          ++ Contact.touch now contact :: skipn (S i) (contacts self);
            _low := _low self; _high := _high self |}
  end.

End KBucket.

(** ** BucketList *)

Module BucketList.

(** The [DHT] back-pointer is left out: it is read only after the ping of
    the eviction branch, which raises before. *)
Record t : Type := mk {
  buckets : list KBucket.t;
  our_id : ID.t
}.

Definition init (our_id : ID.t) : t :=
  {| buckets := [KBucket.init]; our_id := our_id |}.

(** [a or b] evaluates [b] only when [a] is false. *)
Definition can_split (self : t) (kbucket : KBucket.t) : result bool :=
  if KBucket.is_in_range kbucket (our_id self) then Ok true
  else let* d := KBucket.depth kbucket in
       Ok (negb (d mod Constants.B =? 0)).

Fixpoint first_in_range (bs : list KBucket.t) (other_id : ID.t) (i : Z) : Z :=
  match bs with
  | [] => -1
  | b :: bs' =>
      if KBucket.is_in_range b other_id then i
      else first_in_range bs' other_id (i + 1)
  end.

Definition _get_kbucket_index (self : t) (other_id : ID.t) : Z :=
  first_in_range (buckets self) other_id 0.

Definition get_kbucket (self : t) (other_id : ID.t) : result KBucket.t :=
  match Py.getitem (buckets self) (_get_kbucket_index self other_id) with
  | Ok bucket => Ok bucket
  | Raise IndexError => Raise OutOfRangeError
  | Raise e => Raise e
  end.

(** The bucket that [get_kbucket] returns is an element of [buckets]: a
    method that mutates it changes the list at the position it was read
    from. *)
Definition put_kbucket (self : t) (other_id : ID.t) (kbucket : KBucket.t) : t :=
  match Py.setitem (buckets self) (_get_kbucket_index self other_id) kbucket with
  | Ok bs => {| buckets := bs; our_id := our_id self |}
  | Raise _ => self
  end.

(** The branch of a full bucket that cannot split: the contact seen least
    recently is chosen and its protocol's [ping] is called with the name
    [our_contact], which is bound nowhere in the module.  The attribute
    [protocol.ping] is looked up first ([AttributeError] on [None]), then
    the argument is evaluated ([NameError]). *)
Definition evict (kbucket : KBucket.t) : result unit :=
  let* last_seen_contact :=
    Py.getitem (Py.sorted Contact.last_seen (KBucket.contacts kbucket)) 0 in
  match Contact.protocol last_seen_contact with
  | None => Raise AttributeError
  | Some _ => Raise NameError
  end.

(** [add_contact], at the time [now].  [depth] is the number of calls the
    interpreter still allows ([RecursionError] beyond). *)
Fixpoint add_contact (depth : nat) (now : Z) (self : t) (contact : Contact.t)
  : t * result unit :=
  match depth with
  | O => (self, Raise RecursionError)
  | S depth' =>
      if ID.eq (our_id self) (Contact.id contact)
      then (self, Raise OurNodeCannotBeAContactError)
      else
        let contact := Contact.touch now contact in
        match get_kbucket self (Contact.id contact) with
        | Raise e => (self, Raise e)
        | Ok kbucket =>
            if KBucket.contains kbucket (Contact.id contact) then
              match KBucket.replace_contact now kbucket contact with
              | Ok kbucket' => (put_kbucket self (Contact.id contact) kbucket', Ok tt)
              | Raise e => (self, Raise e)
              end
            else if KBucket.is_full kbucket then
              match can_split self kbucket with
              | Raise e => (self, Raise e)
              | Ok true =>
                  match KBucket.split kbucket with
                  | Raise e => (self, Raise e)
                  | Ok (k1, k2) =>
                      let index := _get_kbucket_index self (Contact.id contact) in
                      match Py.setitem (buckets self) index k1 with
                      | Raise e => (self, Raise e)
                      | Ok bs =>
                          let bs := Py.insert bs (index + 1) k2 in
                          add_contact depth' now
                            {| buckets := bs; our_id := our_id self |} contact
                      end
                  end
              | Ok false =>
                  match evict kbucket with
                  | Raise e => (self, Raise e)
                  | Ok _ => (self, Ok tt)
                  end
              end
            else
              match KBucket.add_contact kbucket contact with
              | Ok kbucket' => (put_kbucket self (Contact.id contact) kbucket', Ok tt)
              | Raise e => (self, Raise e)
              end
        end
  end.

Definition get_close_contacts (self : t) (key exclude : ID.t)
  : result (list Contact.t) :=
  let contacts :=
    flat_map
      (fun bucket =>
         List.filter (fun contact => negb (ID.eq (Contact.id contact) exclude))
           (KBucket.contacts bucket))
      (buckets self) in
  let contacts :=
    firstn (Z.to_nat Constants.K)
      (Py.sorted (fun c => ID.xor (Contact.id c) key) contacts) in
  if (Constants.K <? Z.of_nat (length contacts)) && DEBUG
  then Raise ValueError
  else Ok contacts.

Definition contacts (self : t) : list Contact.t :=
  flat_map KBucket.contacts (buckets self).

End BucketList.

(** ** VirtualStorage *)

Module VirtualStorage.

Record t : Type := mk { _store : gmap Z string }.

Definition init : t := {| _store := ∅ |}.

Definition contains (self : t) (key : ID.t) : bool :=
  bool_decide (is_Some (_store self !! key)).

(** [get] tests [isinstance(type(key), ID)] and [isinstance(type(key), int)];
    [type(key)] is a class, an instance of neither, so the [TypeError] of
    the last branch is raised for every key. *)
Definition get (self : t) (key : ID.t) : result string := Raise TypeError.

Definition set (self : t) (key : ID.t) (value : string) (expiration_time_sec : Z) : t :=
  {| _store := <[key := value]> (_store self) |}.

End VirtualStorage.

(** ** Node *)

Module Node.

Record t : Type := mk {
  our_contact : Contact.t;
  _storage : VirtualStorage.t;
  cache_storage : option VirtualStorage.t;
  bucket_list : BucketList.t
}.

Definition init (contact : Contact.t) (storage : VirtualStorage.t)
    (cache_storage : option VirtualStorage.t) : t :=
  {| our_contact := contact; _storage := storage;
     cache_storage := cache_storage;
     bucket_list := BucketList.init (Contact.id contact) |}.

Definition with_bucket_list (self : t) (bl : BucketList.t) : t :=
  {| our_contact := our_contact self; _storage := _storage self;
     cache_storage := cache_storage self; bucket_list := bl |}.

(** [ping]: the body is [pass]; the state is left as it is and [None] is
    returned. *)
Definition ping (self : t) (sender : Contact.t) : t * result (option Contact.t) :=
  (self, Ok None).

(** [send_key_values_if_new_contact]: the body is [pass]. *)
Definition send_key_values_if_new_contact (self : t) (sender : Contact.t) : t := self.

Definition store (depth : nat) (now : Z) (self : t) (key : ID.t)
    (sender : Contact.t) (val : string) (is_cached : bool)
    (expiration_time_sec : Z) : t * result unit :=
  if ID.eq (Contact.id sender) (Contact.id (our_contact self))
  then (self, Raise SenderIsSelfError)
  else
    match BucketList.add_contact depth now (bucket_list self) sender with
    | (bl, Raise e) => (with_bucket_list self bl, Raise e)
    | (bl, Ok _) =>
        let self := with_bucket_list self bl in
        if is_cached then
          match cache_storage self with
          | None => (self, Raise AttributeError)
          | Some cache =>
              ({| our_contact := our_contact self; _storage := _storage self;
                  cache_storage :=
                    Some (VirtualStorage.set cache key val expiration_time_sec);
                  bucket_list := bucket_list self |}, Ok tt)
          end
        else
          let self := send_key_values_if_new_contact self sender in
          ({| our_contact := our_contact self;
              _storage :=
                VirtualStorage.set (_storage self) key val
                  Constants.EXPIRATION_TIME_SEC;
              cache_storage := cache_storage self;
              bucket_list := bucket_list self |}, Ok tt)
    end.

Definition find_node (depth : nat) (now : Z) (self : t) (key : ID.t)
    (sender : Contact.t) : t * result (list Contact.t * option string) :=
  if ID.eq (Contact.id sender) (Contact.id (our_contact self))
  then (self, Raise SendingQueryToSelfError)
  else
    let self := send_key_values_if_new_contact self sender in
    match BucketList.add_contact depth now (bucket_list self) sender with
    | (bl, Raise e) => (with_bucket_list self bl, Raise e)
    | (bl, Ok _) =>
        let self := with_bucket_list self bl in
        (self,
         let* contacts :=
           BucketList.get_close_contacts (bucket_list self) key (Contact.id sender) in
         Ok (contacts, None))
    end.

Definition find_value (self : t) (key : ID.t) (sender : Contact.t)
  : t * result (option (list Contact.t) * option string) :=
  if ID.eq (Contact.id sender) (Contact.id (our_contact self))
  then (self, Raise SendingQueryToSelfError)
  else
    let self := send_key_values_if_new_contact self sender in
    if VirtualStorage.contains (_storage self) key then
      (self, let* v := VirtualStorage.get (_storage self) key in Ok (None, Some v))
    else
      match cache_storage self with
      | None => (self, Raise AttributeError)
      | Some cache =>
          if VirtualStorage.contains cache key then
            (self, let* v := VirtualStorage.get cache key in Ok (None, Some v))
          else
            (self,
             let* contacts :=
               BucketList.get_close_contacts (bucket_list self) key (Contact.id sender) in
             Ok (Some contacts, None))
      end.

End Node.

(** ** Router *)

(** An element of the list that [get_closer_nodes] tests membership in: an
    integer or a list of contacts. *)
Inductive pyobj : Type :=
| PyInt (z : Z)
| PyContacts (l : list Contact.t).

(** [x == o] for an integer [x]: an integer is equal to no list. *)
Definition int_eq (x : Z) (o : pyobj) : bool :=
  match o with
  | PyInt z => x =? z
  | PyContacts _ => false
  end.

(** [x in l]. *)
Definition int_in (x : Z) (l : list pyobj) : bool := existsb (int_eq x) l.

Module Router.

Record t : Type := mk {
  node : Node.t;
  closer_contacts : list Contact.t;
  further_contacts : list Contact.t
}.

Definition init (node : Node.t) : t :=
  {| node := node; closer_contacts := []; further_contacts := [] |}.

(** The statements of [lookup] before its first call of [query]: the seed
    contacts are read, the first [A] of them are split over the closer and
    the further list, and the slice [all_nodes[A + 1:]] is appended to the
    further list.  Returns the router and [(all_nodes, nodes_to_query)]. *)
Definition lookup_seed (self : t) (key : ID.t)
  : t * result (list Contact.t * list Contact.t) :=
  let our := Contact.id (Node.our_contact (node self)) in
  match BucketList.get_close_contacts (Node.bucket_list (node self)) key our with
  | Raise e => (self, Raise e)
  | Ok l =>
      let all_nodes := firstn (Z.to_nat Constants.K) l in
      let nodes_to_query := firstn (Z.to_nat Constants.A) all_nodes in
      let '(closer, further) :=
        fold_left
          (fun '(closer, further) i =>
             if Z.lxor (Contact.id i) key <? Z.lxor our key
             then (closer ++ [i], further)
             else (closer, further ++ [i]))
          nodes_to_query (closer_contacts self, further_contacts self) in
      let further :=
        fold_left (fun further i => further ++ [i])
          (skipn (Z.to_nat (Constants.A + 1)) all_nodes) further in
      ({| node := node self; closer_contacts := closer;
          further_contacts := further |},
       Ok (all_nodes, nodes_to_query))
  end.

(** [get_closer_nodes]: [rpc_call] answers [(contacts, found_by, val)].  The
    two lists are mutated in place and are returned with the result. *)
Definition get_closer_nodes (self : t) (key : ID.t) (node_to_query : Contact.t)
    (rpc_call : ID.t -> Contact.t -> list Contact.t * option Contact.t * option string)
    (closer_contacts further_contacts : list Contact.t)
  : list Contact.t * list Contact.t * bool :=
  let '(contacts, found_by, val) := rpc_call key node_to_query in
  let peers_nodes :=
    List.filter
      (fun contact =>
         negb (int_in (Contact.id contact)
                 [PyInt (Contact.id (Node.our_contact (node self)));
                  PyInt (Contact.id node_to_query);
                  PyContacts closer_contacts;
                  PyContacts further_contacts]))
      contacts in
  let nearest_node_distance := Z.lxor (Contact.id node_to_query) key in
  let closer_contacts :=
    fold_left
      (fun closer p =>
         if (Z.lxor (Contact.id p) key <? nearest_node_distance)
            && negb (existsb (Z.eqb (Contact.id p)) (map Contact.id closer))
         then closer ++ [p] else closer)
      peers_nodes closer_contacts in
  let further_contacts :=
    fold_left
      (fun further p =>
         if (nearest_node_distance <=? Z.lxor (Contact.id p) key)
            && negb (existsb (Z.eqb (Contact.id p)) (map Contact.id further))
         then further ++ [p] else further)
      peers_nodes further_contacts in
  (closer_contacts, further_contacts,
   match val with Some _ => true | None => false end).

(** [get_closest_nodes], a static method: the contacts of a bucket by their
    distance to the key. *)
Definition get_closest_nodes (key : ID.t) (bucket : KBucket.t) : list Contact.t :=
  Py.sorted (fun c => Z.lxor (Contact.id c) key) (KBucket.contacts bucket).

End Router.

(** ** Scenarios *)

(** The concrete routing tables and calls that the statements below evaluate
    the code on. *)
Module Scenario.

Definition contact (i : Z) : Contact.t :=
  {| Contact.id := i; Contact.protocol := None; Contact.last_seen := 0 |}.

(** [add_contact] for every contact of a list, in order, starting at time
    [now], one tick per call. *)
Fixpoint add_contacts (now : Z) (self : BucketList.t) (cs : list Contact.t)
  : BucketList.t * list (result unit) :=
  match cs with
  | [] => (self, [])
  | c :: cs' =>
      let '(self', r) := BucketList.add_contact 1000 now self c in
      let '(self'', rs) := add_contacts (now + 1) self' cs' in
      (self'', r :: rs)
  end.

Definition ids_from_to (a : Z) (n : nat) : list Z :=
  map (fun k => a + Z.of_nat k) (seq 0 n).

(** A table of the node [2^159] after the contacts 1, 2, ..., 21 came in:
    the twenty-first one splits the first bucket. *)
Definition table21 : BucketList.t :=
  fst (add_contacts 1 (BucketList.init ID.mid) (map contact (ids_from_to 1 21))).

(** A table with the five contacts 1, ..., 5. *)
Definition table5 : BucketList.t :=
  fst (add_contacts 1 (BucketList.init ID.mid) (map contact (ids_from_to 1 5))).

Definition node5 : Node.t :=
  Node.with_bucket_list
    (Node.init (contact ID.mid) VirtualStorage.init (Some VirtualStorage.init))
    table5.

(** [empty_node()], with a cache storage. *)
Definition empty_node : Node.t :=
  Node.init (contact 0) VirtualStorage.init (Some VirtualStorage.init).

(** The bucket of the single contact 5, over the whole range. *)
Definition singleton5 : KBucket.t :=
  {| KBucket.contacts := [contact 5]; KBucket._low := 0; KBucket._high := 2 ^ 160 |}.

(** The IDs that a table holds, bucket by bucket. *)
Definition ids_by_bucket (self : BucketList.t) : list (list Z) :=
  map (fun b => map Contact.id (KBucket.contacts b)) (BucketList.buckets self).

(** An RPC that answers the contacts [cs], without a value. *)
Definition answer (cs : list Contact.t)
  : ID.t -> Contact.t -> list Contact.t * option Contact.t * option string :=
  fun _ _ => (cs, None, None).

End Scenario.

(** ** Predicates of the statements *)

(** The order of two elements by their key. *)
Definition key_le {A : Type} (key : A -> Z) (x y : A) : Prop := key x <= key y.

(** The distance of a contact to a key: the bitwise exclusive or of its ID and
    the key, read as an integer. *)
Definition distance (key : ID.t) (c : Contact.t) : Z := Z.lxor (Contact.id c) key.

(** The ranges of a list of buckets run from [lo] to [hi] without a gap: each
    bucket starts where the one before it ends. *)
Fixpoint chain (lo : Z) (bs : list KBucket.t) (hi : Z) : Prop :=
  match bs with
  | [] => lo = hi
  | b :: bs' =>
      KBucket._low b = lo /\ lo <= KBucket._high b /\ chain (KBucket._high b) bs' hi
  end.

(** Every contact of a bucket has its ID in the range of the bucket. *)
Definition contacts_in_range (b : KBucket.t) : Prop :=
  Forall (fun c => KBucket.is_in_range b (Contact.id c) = true) (KBucket.contacts b).

Definition well_formed (self : BucketList.t) : Prop :=
  chain 0 (BucketList.buckets self) (2 ^ 160)
  /\ Forall contacts_in_range (BucketList.buckets self).

(** The bucket lists that a node can hold: the initial one, and what
    [add_contact] makes of one, whether it returns or raises. *)
Inductive reachable (our_id : ID.t) : BucketList.t -> Prop :=
| reachable_init : reachable our_id (BucketList.init our_id)
| reachable_add (self : BucketList.t) (depth : nat) (now : Z) (c : Contact.t) :
    reachable our_id self ->
    ID.valid (Contact.id c) ->
    reachable our_id (fst (BucketList.add_contact depth now self c)).

(** The bounds of the buckets of a list, in order. *)
Definition ranges (self : BucketList.t) : list (Z * Z) :=
  map (fun b => (KBucket._low b, KBucket._high b)) (BucketList.buckets self).

(** The ID [x] is in the range of exactly one bucket of the list. *)
Definition in_one_range (self : BucketList.t) (x : ID.t) : Prop :=
  length (List.filter (fun b => KBucket.is_in_range b x) (BucketList.buckets self))
  = 1%nat.

(** The IDs of the contacts of a list, bucket after bucket. *)
Definition ids (self : BucketList.t) : list ID.t :=
  map Contact.id (BucketList.contacts self).

(** A bucket as [add_contact] keeps it: the contacts in its range, at most K
    of them, no ID twice. *)
Definition bucket_ok (b : KBucket.t) : Prop :=
  contacts_in_range b
  /\ (length (KBucket.contacts b) <= 20)%nat
  /\ NoDup (map Contact.id (KBucket.contacts b)).

Definition table_ok (self : BucketList.t) : Prop :=
  chain 0 (BucketList.buckets self) (2 ^ 160)
  /\ Forall bucket_ok (BucketList.buckets self).

(** The digits of a contact that [shared_bits] reads: those of its ID from
    the third one on. *)
Definition digits (c : Contact.t) : list ascii := skipn 2 (ID.bin (Contact.id c)).

(** [bits] starts every string of [ss]. *)
Definition common_prefix (bits : list ascii) (ss : list (list ascii)) : Prop :=
  forall s, In s ss -> exists rest, s = bits ++ rest.

(** No longer string starts every string of [ss]: [bits] is one of them, or
    two of them differ right after [bits]. *)
Definition not_extensible (bits : list ascii) (ss : list (list ascii)) : Prop :=
  In bits ss
  \/ exists s1 s2 x y,
       In s1 ss /\ In s2 ss
       /\ nth_error s1 (length bits) = Some x
       /\ nth_error s2 (length bits) = Some y
       /\ x <> y.

(** * Properties *)

(** ** The XOR distance *)

Section Xor.

Lemma lxor_le_add (x y : Z) : 0 <= x -> 0 <= y -> Z.lxor x y <= x + y.
Proof.
  intros Hx Hy.
  pose proof (Z.add_lxor_2land x y) as E.
  assert (0 <= Z.land x y) by (apply Z.land_nonneg; auto).
  lia.
Qed.

Lemma lxor_via (a b c : Z) : Z.lxor a c = Z.lxor (Z.lxor a b) (Z.lxor b c).
Proof.
  rewrite Z.lxor_assoc, <- (Z.lxor_assoc b b c), Z.lxor_nilpotent, Z.lxor_0_l.
  reflexivity.
Qed.

(** The distance of two IDs is itself of the size of an ID. *)
Lemma xor_valid (a b : ID.t) : ID.valid a -> ID.valid b -> ID.valid (ID.xor a b).
Proof.
  unfold ID.valid, ID.xor, ID.MIN_ID, ID.MAX_ID. intros [Ha Ha'] [Hb Hb'].
  split.
  - apply Z.lxor_nonneg. tauto.
  - destruct (Z.eq_dec (Z.lxor a b) 0) as [->|Hne]; [lia|].
    assert (0 <= Z.lxor a b) as Hnn by (apply Z.lxor_nonneg; tauto).
    apply Z.log2_lt_pow2; [lia|].
    pose proof (Z.log2_lxor a b Ha Hb) as Hl.
    assert (Z.log2 a < 160).
    { destruct (Z.eq_dec a 0) as [->|]; [simpl; lia|]. apply Z.log2_lt_pow2; lia. }
    assert (Z.log2 b < 160).
    { destruct (Z.eq_dec b 0) as [->|]; [simpl; lia|]. apply Z.log2_lt_pow2; lia. }
    lia.
Qed.

(** C9: for all IDs a, b, c in [0, 2^160) the XOR distance is symmetric,
    vanishes on equal IDs and only there, and satisfies the triangle
    inequality, the distances read as unsigned integers. *)
Theorem xor_distance_metric (a b c : ID.t) :
  ID.valid a -> ID.valid b -> ID.valid c ->
  ID.xor a b = ID.xor b a
  /\ ID.xor a a = 0
  /\ (ID.xor a b = 0 -> a = b)
  /\ ID.xor a c <= ID.xor a b + ID.xor b c.
Proof.
  intros Ha Hb Hc. unfold ID.xor.
  repeat split.
  - apply Z.lxor_comm.
  - apply Z.lxor_nilpotent.
  - apply Z.lxor_eq.
  - rewrite (lxor_via a b c).
    destruct (xor_valid a b Ha Hb) as [H1 _], (xor_valid b c Hb Hc) as [H2 _].
    apply lxor_le_add; assumption.
Qed.

Lemma xor_distance_metric_witness :
  ID.xor 5 3 = ID.xor 3 5
  /\ ID.xor 5 5 = 0
  /\ (ID.xor 5 3 = 0 -> 5 = 3)
  /\ ID.xor 5 9 <= ID.xor 5 3 + ID.xor 3 9.
Proof.
  apply (xor_distance_metric 5 3 9); unfold ID.valid, ID.MIN_ID, ID.MAX_ID; lia.
Defined.

End Xor.

(** ** Looking a bucket up *)

Section GetKBucket.

Lemma first_in_range_bounds (bs : list KBucket.t) (other_id : ID.t) (i : Z) :
  BucketList.first_in_range bs other_id i = -1 /\ Forall (fun b => KBucket.is_in_range b other_id = false) bs
  \/ i <= BucketList.first_in_range bs other_id i < i + Z.of_nat (length bs).
Proof.
  revert i. induction bs as [|b bs IH]; intros i; simpl.
  - left. split; [reflexivity | constructor].
  - destruct (KBucket.is_in_range b other_id) eqn:E.
    + right. lia.
    + destruct (IH (i + 1)) as [[H1 H2] | H].
      * left. split; [assumption | constructor; assumption].
      * right. lia.
Qed.

Lemma first_in_range_miss (bs : list KBucket.t) (other_id : ID.t) (i : Z) :
  (forall b, In b bs -> KBucket.is_in_range b other_id = false) ->
  BucketList.first_in_range bs other_id i = -1.
Proof.
  revert i. induction bs as [|b bs IH]; intros i H; simpl; [reflexivity|].
  rewrite (H b (or_introl eq_refl)). apply IH. intros b' Hb'. apply H. right. exact Hb'.
Qed.

Lemma nth_error_last {A : Type} (l : list A) (d : A) :
  l <> [] -> nth_error l (length l - 1) = Some (List.last l d).
Proof.
  induction l as [|x l IH]; [congruence|]. intros _.
  destruct l as [|y l]; [reflexivity|].
  replace (length (x :: y :: l) - 1)%nat with (S (length (y :: l) - 1))
    by (simpl; lia).
  cbn [nth_error]. rewrite IH by congruence. reflexivity.
Qed.

(** [l[-1]] is the last element of a list that has one. *)
Lemma getitem_minus_one {A : Type} (l : list A) (d : A) :
  l <> [] -> Py.getitem l (-1) = Ok (List.last l d).
Proof.
  intros Hne. unfold Py.getitem, Py.resolve.
  assert (0 < length l)%nat by (destruct l; [congruence | simpl; lia]).
  replace ((0 <=? -1) && (-1 <? Z.of_nat (length l))) with false by reflexivity.
  replace ((-1 <? 0) && (- Z.of_nat (length l) <=? -1)) with true
    by (symmetry; apply andb_true_iff; split; [reflexivity | apply Z.leb_le; lia]).
  replace (Z.to_nat (Z.of_nat (length l) + -1)) with (length l - 1)%nat by lia.
  rewrite (nth_error_last l d Hne). reflexivity.
Qed.

Lemma getitem_in_bounds {A : Type} (l : list A) (i : Z) :
  0 <= i < Z.of_nat (length l) -> exists x, Py.getitem l i = Ok x /\ nth_error l (Z.to_nat i) = Some x.
Proof.
  intros Hi. unfold Py.getitem, Py.resolve.
  replace ((0 <=? i) && (i <? Z.of_nat (length l))) with true
    by (symmetry; apply andb_true_iff; split; [apply Z.leb_le | apply Z.ltb_lt]; lia).
  destruct (nth_error l (Z.to_nat i)) as [x|] eqn:E.
  - exists x. split; reflexivity.
  - apply nth_error_None in E. lia.
Qed.

(** [get_kbucket] raises nothing but [OutOfRangeError], and that only on a
    list without buckets. *)
Lemma get_kbucket_raises (self : BucketList.t) (other_id : ID.t) (e : exn) :
  BucketList.get_kbucket self other_id = Raise e ->
  e = OutOfRangeError /\ BucketList.buckets self = [].
Proof.
  unfold BucketList.get_kbucket, BucketList._get_kbucket_index.
  destruct (first_in_range_bounds (BucketList.buckets self) other_id 0) as [[E _] | Hb].
  - rewrite E. destruct (BucketList.buckets self) as [|b bs] eqn:Ebs.
    + cbn. intros [= <-]. split; reflexivity.
    + rewrite (getitem_minus_one (b :: bs) b) by congruence. discriminate.
  - destruct (getitem_in_bounds (BucketList.buckets self)
                (BucketList.first_in_range (BucketList.buckets self) other_id 0))
      as [x [-> _]]; [lia | discriminate].
Qed.

(** C10: on a bucket list with at least one bucket, an ID that no bucket
    has in range makes [_get_kbucket_index] return -1 and [get_kbucket]
    return the last bucket of the list, not raise; [get_kbucket] raises
    only on a list without buckets, where it raises [OutOfRangeError]. *)
Theorem get_kbucket_miss_returns_last (self : BucketList.t) (other_id : ID.t) :
  BucketList.buckets self <> [] ->
  (forall b, In b (BucketList.buckets self) -> KBucket.is_in_range b other_id = false) ->
  BucketList._get_kbucket_index self other_id = -1
  /\ BucketList.get_kbucket self other_id
     = Ok (List.last (BucketList.buckets self) KBucket.init)
  /\ (forall (self' : BucketList.t) (id' : ID.t) (e : exn),
         BucketList.get_kbucket self' id' = Raise e ->
         e = OutOfRangeError /\ BucketList.buckets self' = [])
  /\ BucketList.get_kbucket (BucketList.mk [] (BucketList.our_id self)) other_id
     = Raise OutOfRangeError.
Proof.
  intros Hne Hmiss.
  assert (BucketList._get_kbucket_index self other_id = -1) as E
    by (apply first_in_range_miss; assumption).
  split; [exact E | split; [| split]].
  - unfold BucketList.get_kbucket. rewrite E.
    rewrite (getitem_minus_one _ KBucket.init Hne). reflexivity.
  - intros self' id' e. apply get_kbucket_raises.
  - reflexivity.
Qed.

Lemma get_kbucket_miss_returns_last_witness :
  BucketList.get_kbucket
    (BucketList.mk [KBucket.mk [] 0 5; KBucket.mk [] 5 9] 3) 12
  = Ok (KBucket.mk [] 5 9).
Proof.
  refine (proj1 (proj2 (get_kbucket_miss_returns_last
           (BucketList.mk [KBucket.mk [] 0 5; KBucket.mk [] 5 9] 3) 12 _ _))).
  - simpl. discriminate.
  - simpl. intros b [<- | [<- | []]]; reflexivity.
Defined.

End GetKBucket.

(** ** Sorting by a key *)

Section SortedByKey.

Context {A : Type} (key : A -> Z).

Lemma insert_sorted_perm (x : A) (l : list A) :
  Permutation (Py.insert_sorted key x l) (x :: l).
Proof.
  induction l as [|y l IH]; simpl; [reflexivity|].
  destruct (key x <=? key y); [reflexivity|].
  rewrite IH. apply perm_swap.
Qed.

Lemma sorted_perm (l : list A) : Permutation (Py.sorted key l) l.
Proof.
  induction l as [|x l IH]; simpl; [reflexivity|].
  rewrite insert_sorted_perm, IH. reflexivity.
Qed.

Lemma sorted_length (l : list A) : length (Py.sorted key l) = length l.
Proof. apply Permutation_length, sorted_perm. Qed.

Lemma insert_sorted_strongly (x : A) (l : list A) :
  StronglySorted (key_le key) l -> StronglySorted (key_le key) (Py.insert_sorted key x l).
Proof.
  induction l as [|y l IH]; simpl; intros Hs.
  - repeat constructor.
  - apply StronglySorted_inv in Hs as [Hs Hy].
    destruct (key x <=? key y) eqn:E.
    + apply Z.leb_le in E. constructor.
      * constructor; assumption.
      * constructor; [exact E|].
        eapply Forall_impl; [exact Hy|]. unfold key_le. intros z Hz. simpl in Hz. lia.
    + apply Z.leb_gt in E. constructor; [apply IH; exact Hs|].
      rewrite (insert_sorted_perm x l). constructor; [unfold key_le; lia | exact Hy].
Qed.

Lemma sorted_strongly (l : list A) : StronglySorted (key_le key) (Py.sorted key l).
Proof.
  induction l as [|x l IH]; simpl; [constructor|].
  apply insert_sorted_strongly, IH.
Qed.

(** The sort is stable: the elements of one key keep their order. *)
Lemma insert_sorted_stable (k : Z) (x : A) (l : list A) :
  List.filter (fun y => key y =? k) (Py.insert_sorted key x l)
  = List.filter (fun y => key y =? k) (x :: l).
Proof.
  induction l as [|y l IH]; [reflexivity|].
  cbn [Py.insert_sorted]. destruct (key x <=? key y) eqn:E; [reflexivity|].
  apply Z.leb_gt in E. cbn [List.filter] in *. rewrite IH.
  destruct (key x =? k) eqn:Ex, (key y =? k) eqn:Ey; try reflexivity.
  apply Z.eqb_eq in Ex, Ey. lia.
Qed.

Lemma sorted_stable (k : Z) (l : list A) :
  List.filter (fun y => key y =? k) (Py.sorted key l)
  = List.filter (fun y => key y =? k) l.
Proof.
  induction l as [|x l IH]; [reflexivity|].
  cbn [Py.sorted]. rewrite insert_sorted_stable. cbn [List.filter]. rewrite IH.
  reflexivity.
Qed.

(** A sorted list is left as it is. *)
Lemma sorted_of_sorted (l : list A) :
  StronglySorted (key_le key) l -> Py.sorted key l = l.
Proof.
  induction l as [|x l IH]; [reflexivity|]. intros Hs.
  apply StronglySorted_inv in Hs as [Hs Hx]. cbn [Py.sorted]. rewrite (IH Hs).
  destruct l as [|y l]; [reflexivity|]. cbn [Py.insert_sorted].
  apply Forall_inv in Hx. unfold key_le in Hx.
  apply Z.leb_le in Hx. rewrite Hx. reflexivity.
Qed.

End SortedByKey.

(** ** The closest contacts *)

Section CloseContacts.

Lemma flat_map_filter (f : Contact.t -> bool) (bs : list KBucket.t) :
  flat_map (fun b => List.filter f (KBucket.contacts b)) bs
  = List.filter f (flat_map KBucket.contacts bs).
Proof.
  induction bs as [|b bs IH]; simpl; [reflexivity|].
  rewrite List.filter_app, IH. reflexivity.
Qed.


End CloseContacts.

(** ** Splitting a bucket *)

Section Split.

Lemma filter_split_perm {A : Type} (f : A -> bool) (l : list A) :
  Permutation (List.filter f l ++ List.filter (fun x => negb (f x)) l) l.
Proof.
  induction l as [|x l IH]; [reflexivity|].
  cbn [List.filter]. destruct (f x); cbn [negb app].
  - constructor. exact IH.
  - rewrite <- Permutation_middle. constructor. exact IH.
Qed.

Lemma filter_length_perm {A : Type} (f : A -> bool) (l l' : list A) :
  Permutation l l' -> length (List.filter f l) = length (List.filter f l').
Proof.
  induction 1 as [|x l l' _ IH|x y l|l l' l'' _ IH1 _ IH2]; cbn [List.filter].
  - reflexivity.
  - destruct (f x); simpl; congruence.
  - destruct (f x), (f y); reflexivity.
  - congruence.
Qed.

Lemma filter_map_length {A B : Type} (g : A -> B) (f : B -> bool) (l : list A) :
  length (List.filter (fun x => f (g x)) l) = length (List.filter f (map g l)).
Proof.
  induction l as [|x l IH]; [reflexivity|].
  cbn [List.filter map]. destruct (f (g x)); simpl; congruence.
Qed.

(** In a sorted list without repetition, the elements below the one at
    index [k] are the [k] elements in front of it. *)
Lemma below_nth_sorted (s : list Z) (k : nat) :
  StronglySorted Z.le s -> NoDup s -> (k < length s)%nat ->
  length (List.filter (fun z => z <? nth k s 0) s) = k.
Proof.
  revert k. induction s as [|x s IH]; intros k Hs Hnd Hk; [simpl in Hk; lia|].
  apply StronglySorted_inv in Hs as [Hs Hx].
  apply NoDup_cons in Hnd as [Hnx Hnd].
  destruct k as [|k]; cbn [nth List.filter].
  - rewrite Z.ltb_irrefl.
    clear IH Hs Hnx Hnd Hk. induction s as [|y s IH]; [reflexivity|].
    apply Forall_cons in Hx as [Hy Hx]. cbn [List.filter].
    replace (y <? x) with false by (symmetry; apply Z.ltb_ge; exact Hy).
    apply IH, Hx.
  - simpl in Hk. assert (Hin : In (nth k s 0) s) by (apply nth_In; lia).
    assert (x <= nth k s 0).
    { rewrite List.Forall_forall in Hx. apply Hx, Hin. }
    assert (x <> nth k s 0).
    { intros ->. apply Hnx, list_elem_of_In, Hin. }
    replace (x <? nth k s 0) with true by (symmetry; apply Z.ltb_lt; lia).
    simpl. rewrite IH by (assumption || lia). reflexivity.
Qed.

(** The high median of at least one number: the element at index [n / 2] of
    the sorted numbers. *)
Lemma median_high_sorted (data : list Z) :
  data <> [] ->
  Py.median_high (Py.sorted (fun z => z) data)
  = Ok (nth (length data / 2) (Py.sorted (fun z => z) data) 0)
  /\ Py.median_high data = Py.median_high (Py.sorted (fun z => z) data).
Proof.
  intros Hne. unfold Py.median_high.
  rewrite (sorted_of_sorted (fun z => z) (Py.sorted (fun z => z) data))
    by apply sorted_strongly.
  rewrite sorted_length.
  destruct data as [|x data]; [congruence|]. split; reflexivity.
Qed.

(** [KBucket.add_contact] on a bucket with room, for an ID of its range. *)
Lemma add_contact_ok (k : KBucket.t) (c : Contact.t) :
  (length (KBucket.contacts k) < 20)%nat
  /\ KBucket._low k <= Contact.id c <= KBucket._high k ->
  KBucket.add_contact k c
  = Ok (KBucket.mk (KBucket.contacts k ++ [c]) (KBucket._low k) (KBucket._high k)).
Proof.
  intros [Hlen Hr]. unfold KBucket.add_contact, KBucket.is_full, KBucket.is_in_range.
  replace (Constants.K <=? Z.of_nat (length (KBucket.contacts k))) with false
    by (symmetry; apply Z.leb_gt; unfold Constants.K; lia).
  replace ((KBucket._low k <=? Contact.id c) && (Contact.id c <=? KBucket._high k))
    with true by (symmetry; apply andb_true_iff; split; apply Z.leb_le; lia).
  reflexivity.
Qed.

(** The loop of [split]: with room left in the children and the contacts in
    the range of the parent, no [add_contact] raises and the contacts are
    filed by their side of the midpoint, in their order. *)
Lemma split_loop (midpoint lo hi : Z) (cs a1 a2 : list Contact.t) :
  (length a1 + length a2 + length cs <= 20)%nat ->
  Forall (fun c => lo <= Contact.id c <= hi) cs ->
  fold_left
    (fun acc c =>
       let* (k1, k2) := acc in
       if Contact.id c <? midpoint
       then let* k1' := KBucket.add_contact k1 c in Ok (k1', k2)
       else let* k2' := KBucket.add_contact k2 c in Ok (k1, k2'))
    cs (Ok (KBucket.mk a1 lo midpoint, KBucket.mk a2 midpoint hi))
  = Ok (KBucket.mk (a1 ++ List.filter (fun c => Contact.id c <? midpoint) cs) lo midpoint,
        KBucket.mk (a2 ++ List.filter (fun c => negb (Contact.id c <? midpoint)) cs)
          midpoint hi).
Proof.
  revert a1 a2. induction cs as [|c cs IH]; intros a1 a2 Hlen Hr.
  - simpl. rewrite !app_nil_r. reflexivity.
  - apply Forall_cons in Hr as [Hc Hr]. simpl in Hlen.
    cbn [fold_left List.filter bind].
    destruct (Contact.id c <? midpoint) eqn:E; cbn [negb].
    + apply Z.ltb_lt in E.
      rewrite (add_contact_ok (KBucket.mk a1 lo midpoint) c)
        by (cbn [KBucket.contacts KBucket._low KBucket._high]; lia).
      cbn [negb bind KBucket.contacts KBucket._low KBucket._high]. rewrite IH.
      * rewrite <- app_assoc. reflexivity.
      * rewrite length_app. simpl. lia.
      * exact Hr.
    + apply Z.ltb_ge in E.
      rewrite (add_contact_ok (KBucket.mk a2 midpoint hi) c)
        by (cbn [KBucket.contacts KBucket._low KBucket._high]; lia).
      cbn [negb bind KBucket.contacts KBucket._low KBucket._high]. rewrite IH.
      * rewrite <- app_assoc. reflexivity.
      * rewrite length_app. simpl. lia.
      * exact Hr.
Qed.

End Split.

Section SplitSpec.

(** C2, at a bucket of one contact: [split] returns, and its first child has
    no contact. *)
Lemma split_singleton_leaves_a_child_empty :
  KBucket.contacts Scenario.singleton5 <> []
  /\ exists k1 k2,
       KBucket.split Scenario.singleton5 = Ok (k1, k2)
       /\ KBucket.contacts k1 = []
       /\ KBucket.contacts k2 = KBucket.contacts Scenario.singleton5.
Proof.
  split; [discriminate|].
  eexists _, _. split; [vm_compute; reflexivity|]. split; reflexivity.
Qed.

(** C2, amended: for every bucket of at least two and at most K contacts,
    their IDs pairwise distinct and in the range of the bucket, [split]
    returns two buckets [k1] over [low, m] and [k2] over [m, high], [m] the
    high median of the contact IDs; the contacts with an ID below [m] are in
    [k1] and the other ones in [k2], in their order; [k1] has [n / 2] of the
    [n] contacts and [k2] the other ones, so both have at least one; and the
    contacts of the two children together are those of the parent. *)
Theorem split_at_high_median (self : KBucket.t) :
  (2 <= length (KBucket.contacts self))%nat ->
  Z.of_nat (length (KBucket.contacts self)) <= Constants.K ->
  NoDup (map Contact.id (KBucket.contacts self)) ->
  Forall (fun c => KBucket.is_in_range self (Contact.id c) = true)
    (KBucket.contacts self) ->
  exists (m : Z) (k1 k2 : KBucket.t),
    Py.median_high (map Contact.id (KBucket.contacts self)) = Ok m
    /\ KBucket.split self = Ok (k1, k2)
    /\ (KBucket._low k1, KBucket._high k1) = (KBucket._low self, m)
    /\ (KBucket._low k2, KBucket._high k2) = (m, KBucket._high self)
    /\ KBucket.contacts k1
       = List.filter (fun c => Contact.id c <? m) (KBucket.contacts self)
    /\ KBucket.contacts k2
       = List.filter (fun c => negb (Contact.id c <? m)) (KBucket.contacts self)
    /\ length (KBucket.contacts k1) = (length (KBucket.contacts self) / 2)%nat
    /\ length (KBucket.contacts k2)
       = (length (KBucket.contacts self) - length (KBucket.contacts self) / 2)%nat
    /\ KBucket.contacts k1 <> []
    /\ KBucket.contacts k2 <> []
    /\ Permutation (KBucket.contacts k1 ++ KBucket.contacts k2) (KBucket.contacts self).
Proof.
  intros Hn2 HnK Hnd Hr.
  set (cs := KBucket.contacts self) in *.
  set (ids := map Contact.id cs) in *.
  set (m := nth (length cs / 2) (Py.sorted (fun z => z) ids) 0).
  assert (Hids : ids <> []) by (unfold ids; destruct cs; [simpl in Hn2; lia | discriminate]).
  destruct (median_high_sorted ids Hids) as [Hmed0 Hmed'].
  assert (Hmed : Py.median_high (Py.sorted (fun z => z) ids) = Ok m).
  { rewrite Hmed0. unfold m, ids. rewrite length_map. reflexivity. }
  clear Hmed0.
  assert (Hlt : length (List.filter (fun c => Contact.id c <? m) cs) = (length cs / 2)%nat).
  { rewrite (filter_map_length Contact.id (fun z => z <? m) cs). fold ids.
    rewrite (filter_length_perm _ _ _ (Permutation_sym (sorted_perm (fun z => z) ids))).
    apply below_nth_sorted.
    - exact (sorted_strongly (fun z => z) ids).
    - rewrite (sorted_perm (fun z => z) ids). exact Hnd.
    - rewrite sorted_length. unfold ids. rewrite length_map.
      apply Nat.div_lt; lia. }
  assert (Hge : length (List.filter (fun c => negb (Contact.id c <? m)) cs)
                = (length cs - length cs / 2)%nat).
  { pose proof (Permutation_length (filter_split_perm (fun c => Contact.id c <? m) cs)) as Hp.
    rewrite length_app, Hlt in Hp. lia. }
  assert (Hhalf : (1 <= length cs / 2 < length cs)%nat).
  { split; [apply Nat.div_le_lower_bound; lia | apply Nat.div_lt; lia]. }
  exists m,
    (KBucket.mk (List.filter (fun c => Contact.id c <? m) cs) (KBucket._low self) m),
    (KBucket.mk (List.filter (fun c => negb (Contact.id c <? m)) cs) m (KBucket._high self)).
  cbn [KBucket.contacts KBucket._low KBucket._high].
  split; [rewrite Hmed'; exact Hmed|].
  split.
  { unfold KBucket.split. fold cs. fold ids. rewrite Hmed. cbn [bind].
    rewrite split_loop.
    - reflexivity.
    - change (Z.of_nat (length cs) <= 20) in HnK.
      change (0 + 0 + length cs <= 20)%nat. lia.
    - eapply Forall_impl; [exact Hr|]. intros c Hc. simpl in Hc.
      unfold KBucket.is_in_range in Hc. apply andb_true_iff in Hc as [H1 H2].
      apply Z.leb_le in H1, H2. lia. }
  repeat split; try reflexivity; try assumption.
  - intros E. rewrite E in Hlt. cbn [length] in Hlt. lia.
  - intros E. rewrite E in Hge. cbn [length] in Hge. lia.
  - apply filter_split_perm.
Qed.

Lemma split_at_high_median_witness :
  exists (m : Z) (k1 k2 : KBucket.t),
    Py.median_high [3; 9; 5; 7] = Ok m
    /\ KBucket.split (KBucket.mk (map Scenario.contact [3; 9; 5; 7]) 0 10) = Ok (k1, k2)
    /\ KBucket.contacts k1 <> []
    /\ KBucket.contacts k2 <> [].
Proof.
  destruct (split_at_high_median (KBucket.mk (map Scenario.contact [3; 9; 5; 7]) 0 10))
    as (m & k1 & k2 & H1 & H2 & _ & _ & _ & _ & _ & _ & H3 & H4 & _).
  - simpl. lia.
  - simpl. unfold Constants.K. lia.
  - apply (bool_decide_unpack _). vm_compute. exact I.
  - simpl. repeat constructor.
  - exists m, k1, k2. repeat split; assumption.
Defined.

End SplitSpec.

(** ** The ranges of the reachable bucket lists *)

Section Reachable.

Lemma chain_app (lo hi : Z) (l1 l2 : list KBucket.t) :
  chain lo (l1 ++ l2) hi <-> exists mid, chain lo l1 mid /\ chain mid l2 hi.
Proof.
  revert lo. induction l1 as [|b l1 IH]; intros lo; simpl.
  - split.
    + intros H. exists lo. split; [reflexivity | exact H].
    + intros [mid [-> H]]. exact H.
  - rewrite IH. split.
    + intros (H1 & H2 & mid & H3 & H4). exists mid. tauto.
    + intros (mid & (H1 & H2 & H3) & H4). repeat split; try assumption.
      exists mid. tauto.
Qed.

Lemma chain_le (lo hi : Z) (bs : list KBucket.t) : chain lo bs hi -> lo <= hi.
Proof.
  revert lo. induction bs as [|b bs IH]; intros lo; simpl.
  - intros ->. lia.
  - intros (_ & H & Hc). apply IH in Hc. lia.
Qed.

(** A chain from [lo] to [hi] has a bucket for every ID between them. *)
Lemma chain_covers (lo hi : Z) (bs : list KBucket.t) (x : ID.t) :
  chain lo bs hi -> bs <> [] -> lo <= x <= hi ->
  Exists (fun b => KBucket.is_in_range b x = true) bs.
Proof.
  revert lo. induction bs as [|b bs IH]; intros lo Hc Hne Hx; [congruence|].
  simpl in Hc. destruct Hc as (Hlo & Hle & Hc).
  destruct (Z_le_gt_dec x (KBucket._high b)) as [Hin | Hout].
  - apply Exists_cons_hd. unfold KBucket.is_in_range.
    apply andb_true_iff. split; apply Z.leb_le; lia.
  - apply Exists_cons_tl. apply (IH (KBucket._high b)); [exact Hc | | lia].
    intros ->. simpl in Hc. lia.
Qed.

(** The index that [_get_kbucket_index] finds is the position of a bucket
    with the ID in range. *)
Lemma first_in_range_found (bs : list KBucket.t) (x : ID.t) (i : Z) :
  Exists (fun b => KBucket.is_in_range b x = true) bs ->
  exists pre b post,
    bs = pre ++ b :: post
    /\ BucketList.first_in_range bs x i = i + Z.of_nat (length pre)
    /\ KBucket.is_in_range b x = true.
Proof.
  revert i. induction bs as [|b bs IH]; intros i Hex.
  - apply Exists_nil in Hex. contradiction.
  - simpl. destruct (KBucket.is_in_range b x) eqn:E.
    + exists [], b, bs. simpl. repeat split; [lia | exact E].
    + apply Exists_cons in Hex as [Hex | Hex]; [congruence|].
      destruct (IH (i + 1) Hex) as (pre & b' & post & -> & Hi & Hb).
      exists (b :: pre), b', post. simpl. repeat split; [lia | exact Hb].
Qed.

Lemma getitem_middle {A : Type} (pre post : list A) (x : A) :
  Py.getitem (pre ++ x :: post) (Z.of_nat (length pre)) = Ok x.
Proof.
  unfold Py.getitem, Py.resolve. rewrite length_app. cbn [length].
  replace ((0 <=? Z.of_nat (length pre))
           && (Z.of_nat (length pre) <? Z.of_nat (length pre + S (length post))))
    with true by (symmetry; apply andb_true_iff; split; [apply Z.leb_le | apply Z.ltb_lt]; lia).
  rewrite Nat2Z.id, nth_error_app2 by lia. rewrite Nat.sub_diag. reflexivity.
Qed.

Lemma setitem_middle {A : Type} (pre post : list A) (x y : A) :
  Py.setitem (pre ++ x :: post) (Z.of_nat (length pre)) y = Ok (pre ++ y :: post).
Proof.
  unfold Py.setitem, Py.resolve. rewrite length_app. cbn [length].
  replace ((0 <=? Z.of_nat (length pre))
           && (Z.of_nat (length pre) <? Z.of_nat (length pre + S (length post))))
    with true by (symmetry; apply andb_true_iff; split; [apply Z.leb_le | apply Z.ltb_lt]; lia).
  rewrite Nat2Z.id. f_equal.
  rewrite firstn_app, firstn_all, Nat.sub_diag. cbn [firstn]. rewrite app_nil_r.
  rewrite skipn_app, skipn_all2 by lia.
  replace (S (length pre) - length pre)%nat with 1%nat by lia. reflexivity.
Qed.

Lemma insert_after {A : Type} (pre post : list A) (x y : A) :
  Py.insert (pre ++ x :: post) (Z.of_nat (length pre) + 1) y = pre ++ x :: y :: post.
Proof.
  unfold Py.insert. rewrite length_app. cbn [length].
  replace (Z.of_nat (length pre) + 1 <? 0) with false by (symmetry; apply Z.ltb_ge; lia).
  rewrite Z.min_l by lia.
  replace (Z.to_nat (Z.of_nat (length pre) + 1)) with (length (pre ++ [x]))
    by (rewrite length_app; simpl; lia).
  replace (pre ++ x :: post) with ((pre ++ [x]) ++ post)
    by (rewrite <- app_assoc; reflexivity).
  rewrite firstn_app, firstn_all, Nat.sub_diag. cbn [firstn]. rewrite app_nil_r.
  rewrite skipn_app, skipn_all, Nat.sub_diag. cbn [skipn app].
  rewrite <- app_assoc. reflexivity.
Qed.

Lemma chain_replace (lo hi : Z) (pre post : list KBucket.t) (b b' : KBucket.t) :
  chain lo (pre ++ b :: post) hi ->
  KBucket._low b' = KBucket._low b -> KBucket._high b' = KBucket._high b ->
  chain lo (pre ++ b' :: post) hi.
Proof.
  intros Hc Hl Hh. apply chain_app in Hc as (mid & H1 & H2).
  apply chain_app. exists mid. split; [exact H1|].
  simpl in *. rewrite Hl, Hh. exact H2.
Qed.

Lemma chain_split (lo hi m : Z) (pre post : list KBucket.t) (b k1 k2 : KBucket.t) :
  chain lo (pre ++ b :: post) hi ->
  KBucket._low k1 = KBucket._low b -> KBucket._high k1 = m ->
  KBucket._low k2 = m -> KBucket._high k2 = KBucket._high b ->
  KBucket._low b <= m <= KBucket._high b ->
  chain lo (pre ++ k1 :: k2 :: post) hi.
Proof.
  intros Hc Hl1 Hh1 Hl2 Hh2 Hm. apply chain_app in Hc as (mid & H1 & H2).
  apply chain_app. exists mid. split; [exact H1|].
  simpl in *. rewrite Hl1, Hh1, Hl2, Hh2. intuition lia.
Qed.

Lemma median_high_in (data : list Z) (m : Z) :
  Py.median_high data = Ok m -> In m data.
Proof.
  unfold Py.median_high. rewrite sorted_length.
  destruct (Nat.eqb (length data) 0) eqn:E; [discriminate|].
  apply Nat.eqb_neq in E. intros [= <-].
  assert (Hlt : (length data / 2 < length data)%nat) by (apply Nat.div_lt; lia).
  apply (Permutation_in _ (sorted_perm (fun z => z) data)).
  apply nth_In. rewrite sorted_length. exact Hlt.
Qed.

Lemma add_contact_inv (k k' : KBucket.t) (c : Contact.t) :
  KBucket.add_contact k c = Ok k' ->
  k' = KBucket.mk (KBucket.contacts k ++ [c]) (KBucket._low k) (KBucket._high k)
  /\ KBucket.is_in_range k (Contact.id c) = true.
Proof.
  unfold KBucket.add_contact.
  destruct (KBucket.is_full k); [discriminate|].
  destruct (KBucket.is_in_range k (Contact.id c)); [|discriminate].
  cbn [negb]. intros [= <-]. split; reflexivity.
Qed.

Lemma split_loop_raise (midpoint : Z) (cs : list Contact.t) (e : exn) :
  fold_left
    (fun acc c =>
       let* (k1, k2) := acc in
       if Contact.id c <? midpoint
       then let* k1' := KBucket.add_contact k1 c in Ok (k1', k2)
       else let* k2' := KBucket.add_contact k2 c in Ok (k1, k2'))
    cs (Raise e)
  = Raise e.
Proof. induction cs as [|c cs IH]; [reflexivity | exact IH]. Qed.

(** What the loop of [split] has done when it did not raise. *)
Lemma split_loop_inv (midpoint : Z) (cs : list Contact.t) (k1 k2 k1' k2' : KBucket.t) :
  fold_left
    (fun acc c =>
       let* (k1, k2) := acc in
       if Contact.id c <? midpoint
       then let* k1' := KBucket.add_contact k1 c in Ok (k1', k2)
       else let* k2' := KBucket.add_contact k2 c in Ok (k1, k2'))
    cs (Ok (k1, k2))
  = Ok (k1', k2') ->
  (KBucket._low k1', KBucket._high k1') = (KBucket._low k1, KBucket._high k1)
  /\ (KBucket._low k2', KBucket._high k2') = (KBucket._low k2, KBucket._high k2)
  /\ KBucket.contacts k1'
     = KBucket.contacts k1 ++ List.filter (fun c => Contact.id c <? midpoint) cs
  /\ KBucket.contacts k2'
     = KBucket.contacts k2 ++ List.filter (fun c => negb (Contact.id c <? midpoint)) cs
  /\ Forall (fun c => KBucket.is_in_range k1 (Contact.id c) = true)
       (List.filter (fun c => Contact.id c <? midpoint) cs)
  /\ Forall (fun c => KBucket.is_in_range k2 (Contact.id c) = true)
       (List.filter (fun c => negb (Contact.id c <? midpoint)) cs).
Proof.
  revert k1 k2. induction cs as [|c cs IH]; intros k1 k2.
  - simpl. intros [= <- <-]. rewrite !app_nil_r. repeat split; constructor.
  - cbn [fold_left List.filter bind].
    destruct (Contact.id c <? midpoint) eqn:E; cbn [negb].
    + destruct (KBucket.add_contact k1 c) as [k|e] eqn:Ea; cbn [bind].
      2:{ rewrite split_loop_raise. discriminate. }
      apply add_contact_inv in Ea as [-> Hr]. intros H.
      apply IH in H as (H1 & H2 & H3 & H4 & H5 & H6).
      cbn [KBucket.contacts KBucket._low KBucket._high] in *.
      rewrite <- app_assoc in H3.
      repeat split; try assumption. constructor; assumption.
    + destruct (KBucket.add_contact k2 c) as [k|e] eqn:Ea; cbn [bind].
      2:{ rewrite split_loop_raise. discriminate. }
      apply add_contact_inv in Ea as [-> Hr]. intros H.
      apply IH in H as (H1 & H2 & H3 & H4 & H5 & H6).
      cbn [KBucket.contacts KBucket._low KBucket._high] in *.
      rewrite <- app_assoc in H4.
      repeat split; try assumption. constructor; assumption.
Qed.

(** What [split] returns when it returns, on a bucket whose contacts are in
    its range: the midpoint is the ID of a contact of the second child, and
    it is in the range of both children. *)
Lemma split_inv (b k1 k2 : KBucket.t) :
  KBucket.split b = Ok (k1, k2) ->
  contacts_in_range b ->
  exists m,
    Py.median_high (map Contact.id (KBucket.contacts b)) = Ok m
    /\ (KBucket._low k1, KBucket._high k1) = (KBucket._low b, m)
    /\ (KBucket._low k2, KBucket._high k2) = (m, KBucket._high b)
    /\ KBucket._low b <= m <= KBucket._high b
    /\ KBucket.contacts k1
       = List.filter (fun c => Contact.id c <? m) (KBucket.contacts b)
    /\ KBucket.contacts k2
       = List.filter (fun c => negb (Contact.id c <? m)) (KBucket.contacts b)
    /\ contacts_in_range k1 /\ contacts_in_range k2
    /\ KBucket.is_in_range k1 m = true /\ KBucket.is_in_range k2 m = true.
Proof.
  unfold KBucket.split. intros H Hb.
  destruct (Py.median_high (Py.sorted (fun z => z) (map Contact.id (KBucket.contacts b))))
    as [m|e] eqn:Em; [|discriminate].
  cbn [bind] in H. apply split_loop_inv in H as (H1 & H2 & H3 & H4 & H5 & H6).
  cbn [KBucket.contacts KBucket._low KBucket._high app] in *.
  injection H1 as Hl1 Hh1. injection H2 as Hl2 Hh2.
  assert (Hin : In m (map Contact.id (KBucket.contacts b))).
  { apply (Permutation_in _ (sorted_perm (fun z => z) _)). apply median_high_in, Em. }
  apply in_map_iff in Hin as (c & Hc & Hcin).
  assert (Hm : KBucket._low b <= m <= KBucket._high b).
  { unfold contacts_in_range in Hb. rewrite List.Forall_forall in Hb.
    specialize (Hb c Hcin). rewrite Hc in Hb. unfold KBucket.is_in_range in Hb.
    apply andb_true_iff in Hb as [Ha Hb]. apply Z.leb_le in Ha, Hb. lia. }
  exists m. split.
  { destruct (map Contact.id (KBucket.contacts b)) as [|x l] eqn:El.
    - discriminate.
    - rewrite (proj2 (median_high_sorted (x :: l) ltac:(discriminate))). exact Em. }
  split; [congruence|]. split; [congruence|]. split; [exact Hm|].
  split; [exact H3|]. split; [exact H4|].
  unfold contacts_in_range, KBucket.is_in_range in *.
  rewrite H3, H4, Hl1, Hh1, Hl2, Hh2. cbn [KBucket._low KBucket._high] in *.
  repeat split; try assumption; apply andb_true_iff; split; apply Z.leb_le; lia.
Qed.

Lemma replace_contact_inv (now : Z) (k k' : KBucket.t) (c : Contact.t) :
  KBucket.replace_contact now k c = Ok k' ->
  exists i,
    k' = KBucket.mk (firstn i (KBucket.contacts k)
                       ++ Contact.touch now c :: skipn (S i) (KBucket.contacts k))
           (KBucket._low k) (KBucket._high k).
Proof.
  unfold KBucket.replace_contact.
  destruct (KBucket.index _ _) as [i|]; [|discriminate].
  intros [= <-]. exists i. reflexivity.
Qed.

Lemma Forall_firstn_skipn {A : Type} (P : A -> Prop) (l : list A) (i : nat) (x : A) :
  Forall P l -> P x -> Forall P (firstn i l ++ x :: skipn (S i) l).
Proof.
  intros Hl Hx. apply Forall_app. split; [apply Forall_take; exact Hl|].
  apply Forall_cons. split; [exact Hx | apply Forall_drop; exact Hl].
Qed.

(** [add_contact] keeps the ranges a chain over the ID space and the contacts
    in the range of their bucket, whether it returns or raises. *)
Lemma add_contact_well_formed (depth : nat) (now : Z) (self : BucketList.t) (c : Contact.t) :
  well_formed self ->
  ID.valid (Contact.id c) ->
  well_formed (fst (BucketList.add_contact depth now self c)).
Proof.
  revert self c. induction depth as [|depth IH]; intros self c Hwf Hv; [exact Hwf|].
  cbn [BucketList.add_contact].
  destruct (ID.eq (BucketList.our_id self) (Contact.id c)); [exact Hwf|].
  cbn [Contact.id Contact.touch].
  destruct self as [bs our]. destruct Hwf as [Hc Hf].
  cbn [BucketList.buckets BucketList.our_id] in *.
  assert (Hne : bs <> []).
  { intros ->. simpl in Hc. lia. }
  assert (Hx : 0 <= Contact.id c <= 2 ^ 160).
  { unfold ID.valid, ID.MIN_ID, ID.MAX_ID in Hv. lia. }
  destruct (first_in_range_found bs (Contact.id c) 0 (chain_covers _ _ _ _ Hc Hne Hx))
    as (pre & b & post & -> & Hidx & Hin).
  unfold BucketList.get_kbucket, BucketList.put_kbucket, BucketList._get_kbucket_index.
  cbn [BucketList.buckets BucketList.our_id].
  rewrite Hidx, Z.add_0_l, getitem_middle.
  apply Forall_app in Hf as [Hpre Hf]. apply Forall_cons in Hf as [Hb Hpost].
  destruct (KBucket.contains b (Contact.id c)).
  { destruct (KBucket.replace_contact now b _) as [b'|e] eqn:Er.
    2:{ split; [exact Hc|]. apply Forall_app. split; [exact Hpre|].
        apply Forall_cons. split; assumption. }
    apply replace_contact_inv in Er as [i ->].
    rewrite setitem_middle. cbn [fst]. split.
    - eapply chain_replace; [exact Hc | reflexivity | reflexivity].
    - apply Forall_app. split; [exact Hpre|]. apply Forall_cons. split; [|exact Hpost].
      unfold contacts_in_range. cbn [KBucket.contacts].
      apply Forall_firstn_skipn; [exact Hb | exact Hin]. }
  destruct (KBucket.is_full b).
  { destruct (BucketList.can_split _ b) as [[|]|e].
    - destruct (KBucket.split b) as [[k1 k2]|e] eqn:Es.
      2:{ split; [exact Hc|]. apply Forall_app. split; [exact Hpre|].
          apply Forall_cons. split; assumption. }
      destruct (split_inv b k1 k2 Es Hb)
        as (m & _ & Hk1 & Hk2 & Hm & _ & _ & Hr1 & Hr2 & _).
      injection Hk1 as Hl1 Hh1. injection Hk2 as Hl2 Hh2.
      rewrite setitem_middle, insert_after. apply IH; [|exact Hv].
      split; cbn [BucketList.buckets].
      + eapply chain_split; eassumption.
      + apply Forall_app. split; [exact Hpre|].
        apply Forall_cons. split; [exact Hr1|]. apply Forall_cons. split; assumption.
    - destruct (BucketList.evict b); (split; [exact Hc|]; apply Forall_app;
        split; [exact Hpre|]; apply Forall_cons; split; assumption).
    - split; [exact Hc|]. apply Forall_app. split; [exact Hpre|].
      apply Forall_cons. split; assumption. }
  destruct (KBucket.add_contact b _) as [b'|e] eqn:Ea.
  2:{ split; [exact Hc|]. apply Forall_app. split; [exact Hpre|].
      apply Forall_cons. split; assumption. }
  apply add_contact_inv in Ea as [-> _].
  rewrite setitem_middle. cbn [fst]. split.
  - eapply chain_replace; [exact Hc | reflexivity | reflexivity].
  - apply Forall_app. split; [exact Hpre|]. apply Forall_cons. split; [|exact Hpost].
    unfold contacts_in_range. cbn [KBucket.contacts].
    apply Forall_app. split; [exact Hb|]. apply Forall_cons. split; [exact Hin | constructor].
Qed.

Lemma first_in_range_before (pre rest : list KBucket.t) (x : ID.t) (i : Z) :
  BucketList.first_in_range (pre ++ rest) x i = i + Z.of_nat (length pre) ->
  Forall (fun b => KBucket.is_in_range b x = false) pre.
Proof.
  revert i. induction pre as [|p pre IH]; intros i Hidx; [constructor|].
  cbn [app BucketList.first_in_range length] in Hidx.
  destruct (KBucket.is_in_range p x) eqn:Ep; [lia|].
  constructor; [exact Ep|]. apply (IH (i + 1)). rewrite Hidx. lia.
Qed.

(** Every reachable bucket list is a chain of ranges from 0 to 2^160 whose
    contacts are in the range of their bucket. *)
Lemma reachable_well_formed (our_id : ID.t) (self : BucketList.t) :
  reachable our_id self -> well_formed self.
Proof.
  induction 1 as [|self depth now c _ IH Hv].
  - split.
    + simpl. repeat split; lia.
    + repeat constructor.
  - apply add_contact_well_formed; assumption.
Qed.

(** In a reachable bucket list every ID is in the range of a bucket, and
    [get_kbucket] returns the first such bucket. *)
Lemma reachable_covers (our_id : ID.t) (self : BucketList.t) (x : ID.t) :
  reachable our_id self -> ID.valid x ->
  exists pre b post,
    BucketList.buckets self = pre ++ b :: post
    /\ Forall (fun b' => KBucket.is_in_range b' x = false) pre
    /\ KBucket.is_in_range b x = true
    /\ BucketList.get_kbucket self x = Ok b.
Proof.
  intros Hr Hv. destruct (reachable_well_formed _ _ Hr) as [Hc _].
  assert (Hne : BucketList.buckets self <> []).
  { intros E. rewrite E in Hc. simpl in Hc. lia. }
  assert (Hx : 0 <= x <= 2 ^ 160).
  { unfold ID.valid, ID.MIN_ID, ID.MAX_ID in Hv. lia. }
  destruct (first_in_range_found _ x 0 (chain_covers _ _ _ _ Hc Hne Hx))
    as (pre & b & post & E & Hidx & Hin).
  exists pre, b, post. split; [exact E|]. split; [|split; [exact Hin|]].
  - rewrite E in Hidx. eapply first_in_range_before. exact Hidx.
  - unfold BucketList.get_kbucket, BucketList._get_kbucket_index.
    rewrite Hidx, E, Z.add_0_l, getitem_middle. reflexivity.
Qed.

(** A run of [add_contact] calls from a reachable list ends in a reachable
    list. *)
Lemma add_contacts_reachable (our_id : ID.t) (now : Z) (self : BucketList.t)
    (cs : list Contact.t) :
  reachable our_id self ->
  Forall (fun c => ID.valid (Contact.id c)) cs ->
  reachable our_id (fst (Scenario.add_contacts now self cs)).
Proof.
  revert now self. induction cs as [|c cs IH]; intros now self Hr Hv; [exact Hr|].
  apply Forall_cons in Hv as [Hc Hv]. cbn [Scenario.add_contacts].
  pose proof (reachable_add our_id self 1000 now c Hr Hc) as Hr'.
  destruct (BucketList.add_contact 1000 now self c) as [self' r].
  specialize (IH (now + 1) self' Hr' Hv).
  destruct (Scenario.add_contacts (now + 1) self' cs) as [self'' rs]. exact IH.
Qed.

Lemma table21_reachable : reachable ID.mid Scenario.table21.
Proof.
  apply add_contacts_reachable; [constructor|].
  apply List.Forall_forall. intros c Hc. apply in_map_iff in Hc as (i & <- & Hi).
  apply in_map_iff in Hi as (k & <- & Hk). apply in_seq in Hk.
  unfold ID.valid, ID.MIN_ID, ID.MAX_ID. simpl Contact.id. lia.
Qed.

End Reachable.

(** ** Neighbouring ranges *)

Section Neighbours.

(** Two neighbours of a reachable bucket list both have their common bound in
    range: the ranges are closed at both ends. *)
Lemma adjacent_ranges_overlap (our_id : ID.t) (self : BucketList.t)
    (pre post : list KBucket.t) (b b' : KBucket.t) :
  reachable our_id self ->
  BucketList.buckets self = pre ++ b :: b' :: post ->
  KBucket._high b = KBucket._low b'
  /\ KBucket.is_in_range b (KBucket._high b) = true
  /\ KBucket.is_in_range b' (KBucket._high b) = true.
Proof.
  intros Hr E. destruct (reachable_well_formed _ _ Hr) as [Hc _].
  rewrite E in Hc. apply chain_app in Hc as (mid & _ & Hc).
  simpl in Hc. destruct Hc as (Hl & Hle & Hl' & Hle' & _).
  unfold KBucket.is_in_range. split; [congruence|].
  split; apply andb_true_iff; split; apply Z.leb_le; lia.
Qed.

End Neighbours.

(** ** The ranges of a bucket list after a split *)

Section Ranges.

(** C1: the ranges of the buckets are meant to partition the ID space, every
    ID in the range of exactly one bucket.  In the code a range is closed at
    both ends and the two children of a split share the median: after the
    contacts 1, ..., 21 came in, the table of node 2^159 has the buckets
    [0, 11] and [11, 2^160], and the ID 11 is in the range of both. *)
Theorem split_ranges_share_the_median :
  reachable ID.mid Scenario.table21
  /\ ranges Scenario.table21 = [(0, 11); (11, 2 ^ 160)]
  /\ ID.valid 11
  /\ ~ in_one_range Scenario.table21 11
  /\ List.filter (fun b => KBucket.is_in_range b 11)
       (BucketList.buckets Scenario.table21)
     = BucketList.buckets Scenario.table21
  /\ length (BucketList.buckets Scenario.table21) = 2%nat.
Proof.
  split; [exact table21_reachable|].
  split; [vm_compute; reflexivity|].
  split; [unfold ID.valid, ID.MIN_ID, ID.MAX_ID; lia|].
  split; [unfold in_one_range; vm_compute; discriminate|].
  split; vm_compute; reflexivity.
Qed.

End Ranges.

(** ** Adding a contact that its bucket holds *)

Section Replace.

Lemma map_replace_nth {A B : Type} (f : A -> B) (l : list A) (n : nat) (x y : A) :
  nth_error l n = Some x -> f y = f x ->
  map f (firstn n l ++ y :: skipn (S n) l) = map f l.
Proof.
  revert n. induction l as [|z l IH]; intros [|n] Hn Hf; try discriminate.
  - injection Hn as ->. simpl. rewrite Hf. reflexivity.
  - simpl in *. rewrite (IH n Hn Hf). reflexivity.
Qed.

Lemma getitem_setitem {A : Type} (l : list A) (i : Z) (x : A) :
  Py.getitem l i = Ok x ->
  exists n, nth_error l n = Some x
            /\ forall y, Py.setitem l i y = Ok (firstn n l ++ y :: skipn (S n) l).
Proof.
  unfold Py.getitem, Py.setitem. destruct (Py.resolve (length l) i) as [n|]; [|discriminate].
  destruct (nth_error l n) as [x'|] eqn:E; [|discriminate].
  intros [= <-]. exists n. split; [exact E | reflexivity].
Qed.

Lemma index_nth (ids : list ID.t) (x : ID.t) (i : nat) :
  KBucket.index ids x = Some i -> nth_error ids i = Some x.
Proof.
  revert i. induction ids as [|y ids IH]; intros i; [discriminate|].
  cbn [KBucket.index]. unfold ID.eq. destruct (y =? x) eqn:E.
  - apply Z.eqb_eq in E. intros [= <-]. simpl. congruence.
  - destruct (KBucket.index ids x) as [j|]; [|discriminate].
    intros [= <-]. simpl. apply IH. reflexivity.
Qed.

Lemma contains_index (b : KBucket.t) (x : ID.t) :
  KBucket.contains b x = true ->
  exists i, KBucket.index (map Contact.id (KBucket.contacts b)) x = Some i.
Proof.
  unfold KBucket.contains. induction (KBucket.contacts b) as [|c cs IH]; [discriminate|].
  cbn [existsb map KBucket.index]. unfold ID.eq at 1 3.
  rewrite (Z.eqb_sym (Contact.id c) x).
  destruct (x =? Contact.id c); [eexists; reflexivity|].
  intros H. destruct (IH H) as [i ->]. eexists. reflexivity.
Qed.

(** When the bucket that [get_kbucket] finds holds the ID of the contact,
    [add_contact] returns, and neither the IDs of a bucket nor the bounds of
    a bucket change: the entry is replaced. *)
Lemma add_contact_replaces (depth : nat) (now : Z) (self : BucketList.t)
    (c : Contact.t) (b : KBucket.t) :
  ID.eq (BucketList.our_id self) (Contact.id c) = false ->
  BucketList.get_kbucket self (Contact.id c) = Ok b ->
  KBucket.contains b (Contact.id c) = true ->
  snd (BucketList.add_contact (S depth) now self c) = Ok tt
  /\ Scenario.ids_by_bucket (fst (BucketList.add_contact (S depth) now self c))
     = Scenario.ids_by_bucket self
  /\ ranges (fst (BucketList.add_contact (S depth) now self c)) = ranges self.
Proof.
  intros Hour Hget Hcont. cbn [BucketList.add_contact]. rewrite Hour.
  cbn [Contact.id Contact.touch]. rewrite Hget, Hcont.
  destruct (contains_index b _ Hcont) as [i Hi].
  unfold KBucket.replace_contact. cbn [Contact.id Contact.touch]. rewrite Hi.
  apply index_nth in Hi. rewrite nth_error_map in Hi.
  destruct (nth_error (KBucket.contacts b) i) as [c'|] eqn:Ec; [|discriminate].
  injection Hi as Hid.
  unfold BucketList.get_kbucket in Hget.
  destruct (Py.getitem _ _) as [b0|e] eqn:Eg; [|destruct e; discriminate].
  injection Hget as ->.
  destruct (getitem_setitem _ _ _ Eg) as (n & Hn & Hset).
  unfold BucketList.put_kbucket. rewrite Hset.
  cbn [fst snd]. unfold Scenario.ids_by_bucket, ranges. cbn [BucketList.buckets].
  split; [reflexivity|]. split.
  - apply (map_replace_nth _ _ n b); [exact Hn|]. cbn [KBucket.contacts].
    apply (map_replace_nth _ _ i c'); [exact Ec|]. symmetry. exact Hid.
  - apply (map_replace_nth _ _ n b); [exact Hn | reflexivity].
Qed.

End Replace.

(** ** Adding a contact twice *)

Section AddTwice.

(** C8: adding a contact whose ID the list already holds is meant to replace
    the entry.  Contact 11 sits in the second bucket of the table built from
    1, ..., 21 (the split put it there), but [get_kbucket] finds the first
    bucket, whose range [0, 11] has 11 too and which does not hold it: the
    contact is appended there and the list holds the ID twice. *)
Theorem add_contact_again_duplicates_the_median :
  reachable ID.mid Scenario.table21
  /\ Scenario.ids_by_bucket Scenario.table21
     = [[1; 2; 3; 4; 5; 6; 7; 8; 9; 10];
        [11; 12; 13; 14; 15; 16; 17; 18; 19; 20; 21]]
  /\ snd (BucketList.add_contact 1000 30 Scenario.table21 (Scenario.contact 11))
     = Ok tt
  /\ Scenario.ids_by_bucket
       (fst (BucketList.add_contact 1000 30 Scenario.table21 (Scenario.contact 11)))
     = [[1; 2; 3; 4; 5; 6; 7; 8; 9; 10; 11];
        [11; 12; 13; 14; 15; 16; 17; 18; 19; 20; 21]]
  /\ NoDup (map Contact.id (BucketList.contacts Scenario.table21))
  /\ ~ NoDup
        (map Contact.id
           (BucketList.contacts
              (fst (BucketList.add_contact 1000 30 Scenario.table21
                      (Scenario.contact 11))))).
Proof.
  split; [exact table21_reachable|].
  split; [vm_compute; reflexivity|].
  split; [vm_compute; reflexivity|].
  split; [vm_compute; reflexivity|].
  split; apply (bool_decide_unpack _); vm_compute; exact I.
Qed.

End AddTwice.

(** ** The depth of every bucket *)

Section DepthBound.

Lemma pos_digits_length (p : positive) : length (Py.pos_digits p) = Pos.size_nat p.
Proof.
  induction p as [p IH|p IH|]; cbn [Py.pos_digits Pos.size_nat];
    [rewrite length_app, IH; simpl; lia .. | reflexivity].
Qed.

(** An ID has at most 160 binary digits. *)
Lemma bin_length (x : ID.t) : ID.valid x -> (1 <= length (ID.bin x) <= 160)%nat.
Proof.
  unfold ID.valid, ID.MIN_ID, ID.MAX_ID, ID.bin. intros [H0 H1].
  destruct x as [|p|p]; [simpl; lia | | lia].
  cbn [Py.bin app skipn]. rewrite skipn_O, pos_digits_length. split.
  - destruct p; simpl; lia.
  - assert (Hp : (p <= 2 ^ 160 - 1)%positive) by lia.
    apply Pos.lt_eq_cases in Hp as [Hp | ->].
    + apply Pos.size_nat_monotone in Hp.
      replace (Pos.size_nat (2 ^ 160 - 1)) with 160%nat in Hp by (vm_compute; reflexivity).
      exact Hp.
    + vm_compute. lia.
Qed.

Lemma first_mismatch_bounds (a b : list ascii) (i0 i : nat) :
  KBucket.first_mismatch a b i0 = Some i -> (i0 <= i < i0 + length b)%nat.
Proof.
  revert a i0. induction b as [|y b IH]; intros a i0; [destruct a; discriminate|].
  destruct a as [|x a]; [discriminate|]. cbn [KBucket.first_mismatch length].
  destruct (Ascii.eqb x y).
  - intros H. apply IH in H. lia.
  - intros [= <-]. lia.
Qed.

(** The shared prefix is no longer than the prefix so far. *)
Lemma longest_shared_prefix_length (a b : list ascii) :
  (length (KBucket.longest_shared_prefix_str a b) <= length b)%nat.
Proof.
  unfold KBucket.longest_shared_prefix_str.
  destruct (length a <? length b)%nat eqn:E.
  - apply Nat.ltb_lt in E.
    destruct (KBucket.first_mismatch b a 0) as [i|] eqn:Em; [|lia].
    rewrite length_firstn. lia.
  - apply Nat.ltb_ge in E.
    destruct (KBucket.first_mismatch a b 0) as [i|] eqn:Em; [|lia].
    apply first_mismatch_bounds in Em. rewrite length_firstn. lia.
Qed.

Lemma shared_bits_fold_length (cs : list Contact.t) (prefix : list ascii) :
  (length
     (fold_left
        (fun longest_prefix contact =>
           let id_bin := skipn 2 (ID.bin (Contact.id contact)) in
           KBucket.longest_shared_prefix_str id_bin longest_prefix)
        cs prefix)
   <= length prefix)%nat.
Proof.
  revert prefix. induction cs as [|c cs IH]; intros prefix; [simpl; lia|].
  cbn [fold_left]. etransitivity; [apply IH|]. apply longest_shared_prefix_length.
Qed.

(** The depth of a bucket with a contact is at most 158: it is never the 160
    of IDs that agree on all their bits. *)
Lemma depth_at_most_158 (b : KBucket.t) (c0 : Contact.t) (cs : list Contact.t) :
  KBucket.contacts b = c0 :: cs ->
  ID.valid (Contact.id c0) ->
  exists d, KBucket.depth b = Ok d /\ 0 <= d <= 158.
Proof.
  intros E Hv. unfold KBucket.depth, KBucket.shared_bits. rewrite E.
  cbn [Py.getitem Py.resolve length]. cbn [bind skipn].
  eexists. split; [reflexivity|].
  pose proof (shared_bits_fold_length cs (skipn 2 (ID.bin (Contact.id c0)))) as Hl.
  rewrite length_skipn in Hl. cbv zeta in Hl. rewrite skipn_O.
  pose proof (bin_length _ Hv). lia.
Qed.

End DepthBound.

(** ** The depth of a bucket *)

Section Depth.

(** C6: the depth is meant to be the length of the common prefix of the IDs
    written on 160 bits.  The code takes the digits of [bin] without padding
    and drops the first two of them: the bucket of the single contact 5
    (digits 101) has depth 1, that of the single contact 2^160 - 1 has
    depth 158, and the bucket of 4 and 5 (digits 100 and 101), whose IDs
    agree on their first 159 bits, has depth 0. *)
Theorem depth_drops_digits_and_does_not_pad :
  KBucket.depth Scenario.singleton5 = Ok 1
  /\ KBucket.depth (KBucket.mk [Scenario.contact ID.max] 0 (2 ^ 160)) = Ok 158
  /\ KBucket.depth (KBucket.mk [Scenario.contact 4; Scenario.contact 5] 0 (2 ^ 160))
     = Ok 0.
Proof. vm_compute. repeat split; reflexivity. Qed.

End Depth.

(** ** The inbound handlers of a node *)

Section Handlers.

(** [find_value] and [ping] leave the routing table as it is, whoever the
    sender. *)
Lemma find_value_keeps_bucket_list (self : Node.t) (key : ID.t) (sender : Contact.t) :
  Node.bucket_list (fst (Node.find_value self key sender)) = Node.bucket_list self.
Proof.
  unfold Node.find_value, Node.send_key_values_if_new_contact.
  repeat match goal with
         | |- context [if ?b then _ else _] => destruct b
         | |- context [match ?o with Some _ => _ | None => _ end] => destruct o
         end; reflexivity.
Qed.

Lemma ping_keeps_bucket_list (self : Node.t) (sender : Contact.t) :
  Node.bucket_list (fst (Node.ping self sender)) = Node.bucket_list self.
Proof. reflexivity. Qed.

(** C5: every handler is meant to add the sender to the routing table.  On
    the empty node 0, a FIND_VALUE and a PING from contact 5 answer and leave
    the table without contacts; a FIND_NODE and a STORE from contact 5 put
    it in. *)
Theorem find_value_and_ping_do_not_add_the_sender :
  let sender := Scenario.contact 5 in
  let n := Scenario.empty_node in
  Contact.id sender <> Contact.id (Node.our_contact n)
  /\ Node.find_value n 1 sender = (n, Ok (Some [], None))
  /\ Node.ping n sender = (n, Ok None)
  /\ BucketList.contacts (Node.bucket_list n) = []
  /\ map Contact.id
       (BucketList.contacts (Node.bucket_list (fst (Node.find_node 1000 1 n 1 sender))))
     = [5]
  /\ map Contact.id
       (BucketList.contacts
          (Node.bucket_list (fst (Node.store 1000 1 n 1 sender "v" false 0))))
     = [5].
Proof. vm_compute. repeat split; try reflexivity. discriminate. Qed.

End Handlers.

(** ** The lists that a lookup starts from *)

Section Seed.

Lemma fold_append {A : Type} (l acc : list A) :
  fold_left (fun further i => further ++ [i]) l acc = acc ++ l.
Proof.
  revert acc. induction l as [|x l IH]; intros acc; simpl.
  - rewrite app_nil_r. reflexivity.
  - rewrite IH, <- app_assoc. reflexivity.
Qed.

Lemma fold_partition {A : Type} (p : A -> bool) (l closer further : list A) :
  fold_left
    (fun '(closer, further) i =>
       if p i then (closer ++ [i], further) else (closer, further ++ [i]))
    l (closer, further)
  = (closer ++ List.filter p l, further ++ List.filter (fun i => negb (p i)) l).
Proof.
  revert closer further. induction l as [|x l IH]; intros closer further; simpl.
  - rewrite !app_nil_r. reflexivity.
  - destruct (p x); simpl; rewrite IH, <- app_assoc; reflexivity.
Qed.

Lemma get_close_contacts_length (self : BucketList.t) (key exclude : ID.t)
    (l : list Contact.t) :
  BucketList.get_close_contacts self key exclude = Ok l -> (length l <= 20)%nat.
Proof.
  unfold BucketList.get_close_contacts. change (Z.to_nat Constants.K) with 20%nat.
  destruct (_ && _); [discriminate|]. intros [= <-]. apply firstn_le_length.
Qed.

(** The closer and the further list after the seeding of [lookup]: the first
    [A] seed contacts by their distance, then the seed contacts from index
    [A + 1] on.  The contact at index [A] is in neither. *)
Lemma lookup_seed_lists (self : Router.t) (key : ID.t) (l : list Contact.t) :
  let our := Contact.id (Node.our_contact (Router.node self)) in
  let closer_than_us := fun i => Z.lxor (Contact.id i) key <? Z.lxor our key in
  BucketList.get_close_contacts (Node.bucket_list (Router.node self)) key our = Ok l ->
  Router.lookup_seed self key
  = ({| Router.node := Router.node self;
        Router.closer_contacts :=
          Router.closer_contacts self ++ List.filter closer_than_us (firstn 3 l);
        Router.further_contacts :=
          (Router.further_contacts self
             ++ List.filter (fun i => negb (closer_than_us i)) (firstn 3 l))
            ++ skipn 4 l |},
     Ok (l, firstn 3 l)).
Proof.
  intros our closer_than_us Hl. unfold Router.lookup_seed. fold our. rewrite Hl.
  assert (Hlen : (length l <= 20)%nat) by (eapply get_close_contacts_length; exact Hl).
  change (Z.to_nat Constants.K) with 20%nat.
  change (Z.to_nat Constants.A) with 3%nat.
  change (Z.to_nat (Constants.A + 1)) with 4%nat.
  rewrite (firstn_all2 (n := 20) l) by exact Hlen.
  rewrite (fold_partition closer_than_us). rewrite fold_append. reflexivity.
Qed.

End Seed.

(** ** The exclusion list of [get_closer_nodes] *)

Section Exclusion.

(** Membership in the list of two integers and two lists of contacts is
    membership among the two integers. *)
Lemma exclusion_ignores_the_lists (x a b : Z) (l1 l2 : list Contact.t) :
  int_in x [PyInt a; PyInt b; PyContacts l1; PyContacts l2] = (x =? a) || (x =? b).
Proof. unfold int_in. simpl. rewrite !orb_false_r. reflexivity. Qed.

End Exclusion.

(** ** The router *)

Section RouterFacts.

(** C3: the seed contacts beyond the first [A] are meant to go to the further
    list.  The slice starts at [A + 1]: with the seed contacts 1, ..., 5 for
    the key 0, the contacts 1, 2, 3 are queried and closer, contact 5 goes
    to the further list, and contact 4, at index 3, goes to neither. *)
Theorem lookup_seed_skips_index_A :
  let r := Router.lookup_seed (Router.init Scenario.node5) 0 in
  option_map (fun '(all_nodes, nodes_to_query) =>
                (map Contact.id all_nodes, map Contact.id nodes_to_query))
    (match snd r with Ok x => Some x | Raise _ => None end)
  = Some ([1; 2; 3; 4; 5], [1; 2; 3])
  /\ map Contact.id (Router.closer_contacts (fst r)) = [1; 2; 3]
  /\ map Contact.id (Router.further_contacts (fst r)) = [5].
Proof. vm_compute. repeat split; reflexivity. Qed.

(** C4: a peer of the answer whose ID is in the closer or the further list
    is meant to be dropped.  The membership test compares the ID with the two
    lists themselves, not with their IDs: with contact 1 in the further list,
    the answer [1] of the queried contact 8 for the key 0 puts contact 1
    into the closer list as well. *)
Theorem get_closer_nodes_keeps_known_peers :
  let '(closer, further, found) :=
    Router.get_closer_nodes (Router.init Scenario.empty_node) 0 (Scenario.contact 8)
      (Scenario.answer [Scenario.contact 1]) [] [Scenario.contact 1] in
  map Contact.id closer = [1] /\ map Contact.id further = [1] /\ found = false.
Proof. vm_compute. repeat split; reflexivity. Qed.

End RouterFacts.

(** * Further properties *)

(** ** What [add_contact] keeps of every bucket *)

Section TableOk.

Lemma contains_false (b : KBucket.t) (x : ID.t) :
  KBucket.contains b x = false -> ~ In x (map Contact.id (KBucket.contacts b)).
Proof.
  unfold KBucket.contains. induction (KBucket.contacts b) as [|c cs IH]; [intros _ []|].
  cbn [existsb map]. intros H. apply orb_false_iff in H as [H1 H2].
  unfold ID.eq in H1. apply Z.eqb_neq in H1. intros [E | E]; [congruence|].
  exact (IH H2 E).
Qed.

Lemma contains_true (b : KBucket.t) (x : ID.t) :
  KBucket.contains b x = true -> In x (map Contact.id (KBucket.contacts b)).
Proof.
  unfold KBucket.contains. induction (KBucket.contacts b) as [|c cs IH]; [discriminate|].
  cbn [existsb map]. intros H. apply orb_true_iff in H as [H | H].
  - unfold ID.eq in H. apply Z.eqb_eq in H. left. congruence.
  - right. exact (IH H).
Qed.

Lemma NoDup_map_filter {A B : Type} (f : A -> B) (p : A -> bool) (l : list A) :
  NoDup (map f l) -> NoDup (map f (List.filter p l)).
Proof.
  induction l as [|x l IH]; [intros _; constructor|].
  cbn [map List.filter]. intros H. apply NoDup_cons in H as [Hx Hl].
  destruct (p x); [|exact (IH Hl)].
  cbn [map]. apply NoDup_cons. split; [|exact (IH Hl)].
  intros Hin. apply Hx. apply list_elem_of_In. apply list_elem_of_In in Hin.
  apply in_map_iff in Hin as (y & Hy & Hin). apply in_map_iff. exists y.
  split; [exact Hy|]. apply List.filter_In in Hin. tauto.
Qed.

Lemma filter_length_le {A : Type} (p : A -> bool) (l : list A) :
  (length (List.filter p l) <= length l)%nat.
Proof. induction l as [|x l IH]; simpl; [lia|]. destruct (p x); simpl; lia. Qed.

(** What [replace_contact] returns: the entry of the first contact with the
    ID is overwritten. *)
Lemma replace_contact_found (now : Z) (k k' : KBucket.t) (c : Contact.t) :
  KBucket.replace_contact now k c = Ok k' ->
  exists i c',
    nth_error (KBucket.contacts k) i = Some c'
    /\ Contact.id c' = Contact.id c
    /\ k' = KBucket.mk (firstn i (KBucket.contacts k)
                          ++ Contact.touch now c :: skipn (S i) (KBucket.contacts k))
              (KBucket._low k) (KBucket._high k).
Proof.
  unfold KBucket.replace_contact.
  destruct (KBucket.index _ _) as [i|] eqn:Ei; [|discriminate].
  intros [= <-]. apply index_nth in Ei. rewrite nth_error_map in Ei.
  destruct (nth_error (KBucket.contacts k) i) as [c'|] eqn:Ec; [|discriminate].
  injection Ei as Hid. exists i, c'. repeat split; assumption.
Qed.

Lemma length_replace_nth {A : Type} (l : list A) (n : nat) (x y : A) :
  nth_error l n = Some x -> length (firstn n l ++ y :: skipn (S n) l) = length l.
Proof.
  intros Hn. assert (n < length l)%nat by (apply nth_error_Some; congruence).
  rewrite length_app, length_firstn. cbn [length]. rewrite length_skipn. lia.
Qed.

Lemma bucket_ok_replace (now : Z) (b b' : KBucket.t) (c : Contact.t) :
  bucket_ok b -> KBucket.is_in_range b (Contact.id c) = true ->
  KBucket.replace_contact now b c = Ok b' ->
  bucket_ok b'
  /\ (KBucket._low b', KBucket._high b') = (KBucket._low b, KBucket._high b)
  /\ map Contact.id (KBucket.contacts b') = map Contact.id (KBucket.contacts b).
Proof.
  intros (Hr & Hl & Hn) Hin Hrep.
  apply replace_contact_found in Hrep as (i & c' & Hi & Hid & ->).
  assert (Hids : map Contact.id
                   (firstn i (KBucket.contacts b)
                      ++ Contact.touch now c :: skipn (S i) (KBucket.contacts b))
                 = map Contact.id (KBucket.contacts b)).
  { apply (map_replace_nth _ _ i c'); [exact Hi | symmetry; exact Hid]. }
  split; [|split; [reflexivity | exact Hids]].
  unfold bucket_ok, contacts_in_range. cbn [KBucket.contacts]. split; [|split].
  - apply Forall_firstn_skipn; [exact Hr | exact Hin].
  - rewrite (length_replace_nth _ _ c' _ Hi). exact Hl.
  - rewrite Hids. exact Hn.
Qed.

Lemma bucket_ok_add (b b' : KBucket.t) (c : Contact.t) :
  bucket_ok b -> KBucket.contains b (Contact.id c) = false ->
  KBucket.is_full b = false ->
  KBucket.add_contact b c = Ok b' ->
  bucket_ok b'
  /\ (KBucket._low b', KBucket._high b') = (KBucket._low b, KBucket._high b)
  /\ KBucket.contacts b' = KBucket.contacts b ++ [c].
Proof.
  intros (Hr & Hl & Hn) Hc Hf Ha. apply add_contact_inv in Ha as [-> Hin].
  split; [|split; reflexivity].
  unfold bucket_ok, contacts_in_range. cbn [KBucket.contacts]. split; [|split].
  - apply Forall_app. split; [exact Hr|]. apply Forall_cons. split; [exact Hin | constructor].
  - unfold KBucket.is_full, Constants.K in Hf. apply Z.leb_gt in Hf.
    rewrite length_app. simpl. lia.
  - rewrite map_app. cbn [map]. apply NoDup_app. split; [exact Hn|]. split.
    + intros x Hx Hx'. apply list_elem_of_In in Hx'. destruct Hx' as [<- | []].
      apply (contains_false _ _ Hc). apply list_elem_of_In. exact Hx.
    + apply NoDup_singleton.
Qed.

Lemma bucket_ok_split (b k1 k2 : KBucket.t) :
  bucket_ok b -> KBucket.split b = Ok (k1, k2) -> bucket_ok k1 /\ bucket_ok k2.
Proof.
  intros (Hr & Hl & Hn) Hs.
  destruct (split_inv b k1 k2 Hs Hr) as (m & _ & _ & _ & _ & E1 & E2 & Hr1 & Hr2 & _).
  unfold bucket_ok. rewrite E1, E2 in *. repeat split; try assumption.
  - pose proof (filter_length_le (fun c => Contact.id c <? m) (KBucket.contacts b)). lia.
  - apply NoDup_map_filter, Hn.
  - pose proof (filter_length_le (fun c => negb (Contact.id c <? m)) (KBucket.contacts b)).
    lia.
  - apply NoDup_map_filter, Hn.
Qed.

End TableOk.

(** ** One call of [add_contact] on a list with a bucket for the ID *)

Section Step.

Lemma first_in_range_app_miss (pre rest : list KBucket.t) (x : ID.t) (i : Z) :
  Forall (fun b => KBucket.is_in_range b x = false) pre ->
  BucketList.first_in_range (pre ++ rest) x i
  = BucketList.first_in_range rest x (i + Z.of_nat (length pre)).
Proof.
  revert i. induction pre as [|p pre IH]; intros i Hp.
  - simpl. f_equal. lia.
  - apply Forall_cons in Hp as [Hp Hpre]. cbn [app BucketList.first_in_range length].
    rewrite Hp, IH by exact Hpre. f_equal. lia.
Qed.

(** In a list whose ranges are a chain over the ID space, the bucket of an ID
    is the first one with the ID in range. *)
Lemma table_found (self : BucketList.t) (x : ID.t) :
  chain 0 (BucketList.buckets self) (2 ^ 160) -> ID.valid x ->
  exists pre b post,
    BucketList.buckets self = pre ++ b :: post
    /\ Forall (fun b' => KBucket.is_in_range b' x = false) pre
    /\ KBucket.is_in_range b x = true
    /\ BucketList.first_in_range (pre ++ b :: post) x 0 = Z.of_nat (length pre).
Proof.
  intros Hc Hv.
  assert (Hne : BucketList.buckets self <> []).
  { intros E. rewrite E in Hc. simpl in Hc. lia. }
  assert (Hx : 0 <= x <= 2 ^ 160).
  { unfold ID.valid, ID.MIN_ID, ID.MAX_ID in Hv. lia. }
  destruct (first_in_range_found _ x 0 (chain_covers _ _ _ _ Hc Hne Hx))
    as (pre & b & post & E & Hidx & Hin).
  exists pre, b, post. rewrite E in Hidx. rewrite Z.add_0_l in Hidx.
  split; [exact E|]. split; [|split; assumption].
  eapply first_in_range_before. rewrite Z.add_0_l. exact Hidx.
Qed.

(** The eviction branch raises, always. *)
Lemma evict_raises (b : KBucket.t) :
  KBucket.contacts b <> [] ->
  BucketList.evict b = Raise AttributeError \/ BucketList.evict b = Raise NameError.
Proof.
  intros Hne. unfold BucketList.evict.
  destruct (Py.sorted Contact.last_seen (KBucket.contacts b)) as [|c0 l] eqn:E.
  - apply (f_equal (@length _)) in E. rewrite sorted_length in E.
    destruct (KBucket.contacts b); [congruence | discriminate].
  - assert (Hg : Py.getitem (c0 :: l) 0 = Ok c0).
    { destruct (getitem_in_bounds (c0 :: l) 0) as [x [-> Hx]]; [simpl; lia|].
      simpl in Hx. congruence. }
    rewrite Hg. cbn [bind].
    destruct (Contact.protocol c0); [right | left]; reflexivity.
Qed.

Lemma evict_not_ok (b : KBucket.t) (u : unit) : BucketList.evict b <> Ok u.
Proof.
  unfold BucketList.evict. destruct (Py.getitem _ 0) as [c0|e]; cbn [bind]; [|discriminate].
  destruct (Contact.protocol c0); discriminate.
Qed.

(** [add_contact] on a list in which the bucket [b], between [pre] and
    [post], is the first one with the ID in range, for an ID that is not
    ours: the four branches, with the list they leave. *)
Lemma add_contact_step (depth : nat) (now : Z) (our : ID.t)
    (pre post : list KBucket.t) (b : KBucket.t) (c : Contact.t) :
  let self := BucketList.mk (pre ++ b :: post) our in
  let c' := Contact.touch now c in
  BucketList.first_in_range (pre ++ b :: post) (Contact.id c) 0 = Z.of_nat (length pre) ->
  ID.eq our (Contact.id c) = false ->
  BucketList.add_contact (S depth) now self c
  = if KBucket.contains b (Contact.id c) then
      match KBucket.replace_contact now b c' with
      | Ok b' => (BucketList.mk (pre ++ b' :: post) our, Ok tt)
      | Raise e => (self, Raise e)
      end
    else if KBucket.is_full b then
      match BucketList.can_split self b with
      | Raise e => (self, Raise e)
      | Ok true =>
          match KBucket.split b with
          | Raise e => (self, Raise e)
          | Ok (k1, k2) =>
              BucketList.add_contact depth now
                (BucketList.mk (pre ++ k1 :: k2 :: post) our) c'
          end
      | Ok false =>
          match BucketList.evict b with
          | Raise e => (self, Raise e)
          | Ok _ => (self, Ok tt)
          end
      end
    else
      match KBucket.add_contact b c' with
      | Ok b' => (BucketList.mk (pre ++ b' :: post) our, Ok tt)
      | Raise e => (self, Raise e)
      end.
Proof.
  intros self c' Hidx Hour. cbn [BucketList.add_contact]. subst self.
  cbn [BucketList.our_id]. rewrite Hour. fold c'.
  change (Contact.id c') with (Contact.id c).
  unfold BucketList.get_kbucket, BucketList.put_kbucket, BucketList._get_kbucket_index.
  cbn [BucketList.buckets BucketList.our_id].
  rewrite Hidx, getitem_middle.
  destruct (KBucket.contains b (Contact.id c)).
  { destruct (KBucket.replace_contact now b c'); [|reflexivity].
    rewrite setitem_middle. reflexivity. }
  destruct (KBucket.is_full b).
  { destruct (BucketList.can_split _ b) as [[|]|e]; try reflexivity.
    destruct (KBucket.split b) as [[k1 k2]|e]; [|reflexivity].
    rewrite setitem_middle, insert_after. reflexivity. }
  destruct (KBucket.add_contact b c'); [|reflexivity].
  rewrite setitem_middle. reflexivity.
Qed.

End Step.

(** ** What [add_contact] does to a list *)

Section AddContactSpec.

Lemma ids_middle (pre post : list KBucket.t) (b : KBucket.t) (our : ID.t) :
  ids (BucketList.mk (pre ++ b :: post) our)
  = map Contact.id (flat_map KBucket.contacts pre)
      ++ map Contact.id (KBucket.contacts b)
      ++ map Contact.id (flat_map KBucket.contacts post).
Proof.
  unfold ids, BucketList.contacts. cbn [BucketList.buckets].
  rewrite flat_map_app, map_app. cbn [flat_map]. rewrite map_app. reflexivity.
Qed.

Lemma ids_split (pre post : list KBucket.t) (b k1 k2 : KBucket.t) (our : ID.t) :
  Permutation (KBucket.contacts k1 ++ KBucket.contacts k2) (KBucket.contacts b) ->
  Permutation (ids (BucketList.mk (pre ++ k1 :: k2 :: post) our))
    (ids (BucketList.mk (pre ++ b :: post) our)).
Proof.
  intros Hp. rewrite ids_middle.
  replace (pre ++ k1 :: k2 :: post) with (pre ++ k1 :: (k2 :: post)) by reflexivity.
  rewrite ids_middle. cbn [flat_map]. rewrite map_app.
  apply Permutation_app_head. rewrite app_assoc. apply Permutation_app_tail.
  rewrite <- map_app. apply Permutation_map. exact Hp.
Qed.

Lemma table_ok_replace (pre post : list KBucket.t) (b b' : KBucket.t) (our : ID.t) :
  table_ok (BucketList.mk (pre ++ b :: post) our) ->
  bucket_ok b' ->
  (KBucket._low b', KBucket._high b') = (KBucket._low b, KBucket._high b) ->
  table_ok (BucketList.mk (pre ++ b' :: post) our).
Proof.
  intros [Hc Hf] Hb' Hbounds. injection Hbounds as Hl Hh.
  cbn [BucketList.buckets] in *. split.
  - eapply chain_replace; eassumption.
  - apply Forall_app in Hf as [Hpre Hf]. apply Forall_cons in Hf as [_ Hpost].
    apply Forall_app. split; [exact Hpre|]. apply Forall_cons. split; assumption.
Qed.

(** The list after the split of one of its buckets. *)
Lemma table_ok_split (pre post : list KBucket.t) (b k1 k2 : KBucket.t) (our : ID.t) :
  table_ok (BucketList.mk (pre ++ b :: post) our) ->
  KBucket.split b = Ok (k1, k2) ->
  table_ok (BucketList.mk (pre ++ k1 :: k2 :: post) our)
  /\ Permutation (KBucket.contacts k1 ++ KBucket.contacts k2) (KBucket.contacts b).
Proof.
  intros [Hc Hf] Hs. cbn [BucketList.buckets] in *.
  apply Forall_app in Hf as [Hpre Hf]. apply Forall_cons in Hf as [Hb Hpost].
  destruct (bucket_ok_split b k1 k2 Hb Hs) as [Hk1 Hk2].
  destruct Hb as (Hr & _ & _).
  destruct (split_inv b k1 k2 Hs Hr) as (m & _ & Hb1 & Hb2 & Hm & E1 & E2 & _).
  injection Hb1 as Hl1 Hh1. injection Hb2 as Hl2 Hh2.
  split; [split|].
  - eapply chain_split; eassumption.
  - apply Forall_app. split; [exact Hpre|].
    apply Forall_cons. split; [exact Hk1|]. apply Forall_cons. split; assumption.
  - rewrite E1, E2. apply filter_split_perm.
Qed.

(** One call of [add_contact] with a valid ID, on a list whose ranges are a
    chain and whose buckets are as [add_contact] keeps them: the list stays
    so; its IDs stay the same or gain the new one; they stay the same when the
    call raises; and the new ID is among them when it returns. *)
Lemma add_contact_spec (depth : nat) (now : Z) (self : BucketList.t) (c : Contact.t) :
  table_ok self ->
  ID.valid (Contact.id c) ->
  table_ok (fst (BucketList.add_contact depth now self c))
  /\ (Permutation (ids (fst (BucketList.add_contact depth now self c))) (ids self)
      \/ Permutation (ids (fst (BucketList.add_contact depth now self c)))
           (Contact.id c :: ids self))
  /\ (forall e, snd (BucketList.add_contact depth now self c) = Raise e ->
                Permutation (ids (fst (BucketList.add_contact depth now self c)))
                  (ids self))
  /\ (forall u, snd (BucketList.add_contact depth now self c) = Ok u ->
                In (Contact.id c) (ids (fst (BucketList.add_contact depth now self c)))).
Proof.
  revert self c. induction depth as [|depth IH]; intros self c Hok Hv.
  { cbn [BucketList.add_contact fst snd].
    split; [exact Hok | split; [left; reflexivity | split]].
    - intros e _. reflexivity.
    - intros u Hu. discriminate. }
  destruct (ID.eq (BucketList.our_id self) (Contact.id c)) eqn:Hour.
  { cbn [BucketList.add_contact]. rewrite Hour. cbn [fst snd].
    split; [exact Hok | split; [left; reflexivity | split]].
    - intros e _. reflexivity.
    - intros u Hu. discriminate. }
  destruct self as [bs our]. cbn [BucketList.our_id] in Hour.
  destruct (table_found _ _ (proj1 Hok) Hv) as (pre & b & post & E & Hpre & Hin & Hidx).
  cbn [BucketList.buckets] in E. subst bs.
  rewrite (add_contact_step depth now our pre post b c Hidx Hour).
  assert (Hb : bucket_ok b).
  { destruct Hok as [_ Hf]. cbn [BucketList.buckets] in Hf.
    apply Forall_app in Hf as [_ Hf]. apply Forall_cons in Hf as [Hb _]. exact Hb. }
  assert (Hstay : forall e : exn,
             let r := (BucketList.mk (pre ++ b :: post) our, @Raise unit e) in
             table_ok (fst r)
             /\ (Permutation (ids (fst r)) (ids (BucketList.mk (pre ++ b :: post) our))
                 \/ Permutation (ids (fst r))
                      (Contact.id c :: ids (BucketList.mk (pre ++ b :: post) our)))
             /\ (forall e0, snd r = Raise e0 ->
                   Permutation (ids (fst r)) (ids (BucketList.mk (pre ++ b :: post) our)))
             /\ (forall u, snd r = Ok u -> In (Contact.id c) (ids (fst r)))).
  { intros e. cbn [fst snd].
    split; [exact Hok | split; [left; reflexivity | split]].
    - intros e0 _. reflexivity.
    - intros u Hu. discriminate. }
  destruct (KBucket.contains b (Contact.id c)) eqn:Hcont.
  { destruct (KBucket.replace_contact now b (Contact.touch now c)) as [b'|e] eqn:Er;
      [|apply Hstay].
    destruct (bucket_ok_replace now b b' (Contact.touch now c) Hb Hin Er)
      as (Hb' & Hbounds & Hids).
    cbn [fst snd].
    assert (Hsame : ids (BucketList.mk (pre ++ b' :: post) our)
                    = ids (BucketList.mk (pre ++ b :: post) our)).
    { rewrite !ids_middle, Hids. reflexivity. }
    split; [eapply table_ok_replace; eassumption|].
    rewrite Hsame. split; [left; reflexivity|]. split; [reflexivity|].
    intros _ _. rewrite ids_middle. apply in_or_app. right. apply in_or_app. left.
    apply contains_true, Hcont. }
  destruct (KBucket.is_full b) eqn:Hfull.
  { destruct (BucketList.can_split _ b) as [[|]|e]; [| |apply Hstay].
    - destruct (KBucket.split b) as [[k1 k2]|e] eqn:Es; [|apply Hstay].
      destruct (table_ok_split pre post b k1 k2 our Hok Es) as [Hok' Hperm].
      pose proof (ids_split pre post b k1 k2 our Hperm) as Hids.
      destruct (IH (BucketList.mk (pre ++ k1 :: k2 :: post) our) (Contact.touch now c)
                  Hok' Hv) as (H1 & H2 & H3 & H4).
      change (Contact.id (Contact.touch now c)) with (Contact.id c) in *.
      split; [exact H1|]. split; [|split].
      + destruct H2 as [H2 | H2]; [left | right]; rewrite H2, Hids; reflexivity.
      + intros e He. rewrite (H3 e He). exact Hids.
      + exact H4.
    - destruct (BucketList.evict b) as [u|e] eqn:Ee; [|apply Hstay].
      exfalso. exact (evict_not_ok b u Ee). }
  destruct (KBucket.add_contact b (Contact.touch now c)) as [b'|e] eqn:Ea; [|apply Hstay].
  destruct (bucket_ok_add b b' (Contact.touch now c) Hb Hcont Hfull Ea)
    as (Hb' & Hbounds & Hcs).
  cbn [fst snd].
  assert (Hnew : Permutation (ids (BucketList.mk (pre ++ b' :: post) our))
                   (Contact.id c :: ids (BucketList.mk (pre ++ b :: post) our))).
  { rewrite !ids_middle, Hcs, map_app. cbn [map Contact.id Contact.touch].
    rewrite <- !app_assoc. cbn [app].
    rewrite <- Permutation_middle. rewrite <- Permutation_middle. reflexivity. }
  split; [eapply table_ok_replace; eassumption|].
  split; [right; exact Hnew|]. split; [discriminate|].
  intros _ _. apply (Permutation_in _ (Permutation_sym Hnew)). left. reflexivity.
Qed.

End AddContactSpec.

(** ** The outcomes of [add_contact] *)

Section Outcome.

Lemma reachable_table_ok (our_id : ID.t) (self : BucketList.t) :
  reachable our_id self -> table_ok self.
Proof.
  induction 1 as [|self depth now c _ IH Hv].
  - split; cbn [BucketList.init BucketList.buckets].
    + simpl. repeat split; lia.
    + constructor; [|constructor]. unfold bucket_ok, contacts_in_range. cbn.
      split; [constructor | split; [lia | constructor]].
  - apply add_contact_spec; assumption.
Qed.

Lemma reachable_our_id (our_id : ID.t) (self : BucketList.t) :
  reachable our_id self -> BucketList.our_id self = our_id.
Proof.
  induction 1 as [|self depth now c _ IH Hv]; [reflexivity|].
  rewrite <- IH. clear. revert self c.
  induction depth as [|depth IHd]; intros self c; [reflexivity|].
  cbn [BucketList.add_contact].
  destruct (ID.eq _ _); [reflexivity|].
  destruct (BucketList.get_kbucket _ _) as [kb|e]; [|reflexivity].
  unfold BucketList.put_kbucket.
  destruct (KBucket.contains kb _).
  { destruct (KBucket.replace_contact _ _ _); [|reflexivity].
    destruct (Py.setitem _ _ _); reflexivity. }
  destruct (KBucket.is_full kb).
  { destruct (BucketList.can_split _ _) as [[|]|e]; [| |reflexivity].
    - destruct (KBucket.split kb) as [[k1 k2]|e]; [|reflexivity].
      destruct (Py.setitem _ _ _); [|reflexivity]. rewrite IHd. reflexivity.
    - destruct (BucketList.evict kb); reflexivity. }
  destruct (KBucket.add_contact kb _); [|reflexivity].
  destruct (Py.setitem _ _ _); reflexivity.
Qed.

(** In a list of distinct numbers, as many are below the high median as half
    their count, rounded down. *)
Lemma half_below_median (cs : list Contact.t) :
  NoDup (map Contact.id cs) -> cs <> [] ->
  length
    (List.filter
       (fun c => Contact.id c <? nth (length cs / 2) (Py.sorted (fun z => z) (map Contact.id cs)) 0)
       cs)
  = (length cs / 2)%nat.
Proof.
  intros Hnd Hne.
  set (m := nth (length cs / 2) (Py.sorted (fun z => z) (map Contact.id cs)) 0).
  assert (Hlt : (length cs / 2 < length cs)%nat).
  { apply Nat.div_lt; [|lia]. destruct cs; [congruence | simpl; lia]. }
  rewrite (filter_map_length Contact.id (fun z => z <? m) cs).
  rewrite (filter_length_perm _ _ _
             (Permutation_sym (sorted_perm (fun z => z) (map Contact.id cs)))).
  apply below_nth_sorted.
  - exact (sorted_strongly (fun z => z) (map Contact.id cs)).
  - rewrite (sorted_perm (fun z => z) (map Contact.id cs)). exact Hnd.
  - rewrite sorted_length, length_map. exact Hlt.
Qed.

(** The split of a full bucket of a reachable list returns, and none of the
    two children is full. *)
Lemma split_full_bucket (b : KBucket.t) :
  bucket_ok b -> KBucket.is_full b = true ->
  exists k1 k2,
    KBucket.split b = Ok (k1, k2)
    /\ KBucket.is_full k1 = false /\ KBucket.is_full k2 = false.
Proof.
  intros (Hr & Hl & Hn) Hfull.
  unfold KBucket.is_full, Constants.K in Hfull. apply Z.leb_le in Hfull.
  assert (Hlen : length (KBucket.contacts b) = 20%nat) by lia.
  assert (Hne : KBucket.contacts b <> []) by (intros E; rewrite E in Hlen; discriminate).
  assert (Hids : map Contact.id (KBucket.contacts b) <> []).
  { destruct (KBucket.contacts b); [congruence | discriminate]. }
  destruct (median_high_sorted _ Hids) as [Hmed _]. rewrite length_map in Hmed.
  pose proof (half_below_median _ Hn Hne) as Hhalf.
  set (m := nth (length (KBucket.contacts b) / 2)
              (Py.sorted (fun z => z) (map Contact.id (KBucket.contacts b))) 0) in *.
  pose proof (Permutation_length
                (filter_split_perm (fun c => Contact.id c <? m) (KBucket.contacts b))) as Hp.
  rewrite length_app, Hhalf, Hlen in Hp. change (20 / 2)%nat with 10%nat in Hp.
  rewrite Hlen in Hhalf. change (20 / 2)%nat with 10%nat in Hhalf.
  eexists _, _. split.
  - unfold KBucket.split. rewrite Hmed. cbn [bind]. rewrite split_loop.
    + reflexivity.
    + change (0 + 0 + length (KBucket.contacts b) <= 20)%nat. lia.
    + eapply Forall_impl; [exact Hr|]. intros c Hc. cbn beta in Hc.
      unfold KBucket.is_in_range in Hc. apply andb_true_iff in Hc as [H1 H2].
      apply Z.leb_le in H1, H2. lia.
  - unfold KBucket.is_full, Constants.K. cbn [KBucket.contacts app].
    split; apply Z.leb_gt; lia.
Qed.

Lemma can_split_returns (self : BucketList.t) (b : KBucket.t) :
  KBucket.contacts b <> [] -> exists v, BucketList.can_split self b = Ok v.
Proof.
  intros Hne. unfold BucketList.can_split.
  destruct (KBucket.is_in_range b _); [eexists; reflexivity|].
  unfold KBucket.depth, KBucket.shared_bits.
  destruct (KBucket.contacts b) as [|c0 cs]; [congruence|].
  assert (Hg : Py.getitem (c0 :: cs) 0 = Ok c0).
  { destruct (getitem_in_bounds (c0 :: cs) 0) as [x [-> Hx]]; [simpl; lia|].
    simpl in Hx. congruence. }
  rewrite Hg. cbn [bind]. eexists. reflexivity.
Qed.

(** With the ID in the first bucket in range, or room in it, one call adds
    or replaces the contact and returns. *)
Lemma add_contact_room (depth : nat) (now : Z) (our : ID.t)
    (pre post : list KBucket.t) (b : KBucket.t) (c : Contact.t) :
  BucketList.first_in_range (pre ++ b :: post) (Contact.id c) 0 = Z.of_nat (length pre) ->
  ID.eq our (Contact.id c) = false ->
  KBucket.is_in_range b (Contact.id c) = true ->
  KBucket.is_full b = false ->
  snd (BucketList.add_contact (S depth) now (BucketList.mk (pre ++ b :: post) our) c)
  = Ok tt.
Proof.
  intros Hidx Hour Hin Hfull. rewrite (add_contact_step depth now our pre post b c Hidx Hour).
  destruct (KBucket.contains b (Contact.id c)) eqn:Hc.
  - destruct (contains_index b _ Hc) as [i Hi].
    unfold KBucket.replace_contact. cbn [Contact.id Contact.touch]. rewrite Hi. reflexivity.
  - rewrite Hfull. unfold KBucket.add_contact. rewrite Hfull.
    cbn [Contact.id Contact.touch]. rewrite Hin. reflexivity.
Qed.

(** [add_contact] with room for two calls, on a list as [add_contact] keeps
    it and for an ID that is not ours: it returns, or it raises from the
    eviction branch. *)
Lemma add_contact_outcome (depth : nat) (now : Z) (self : BucketList.t) (c : Contact.t) :
  table_ok self ->
  ID.valid (Contact.id c) ->
  ID.eq (BucketList.our_id self) (Contact.id c) = false ->
  snd (BucketList.add_contact (S (S depth)) now self c) = Ok tt
  \/ snd (BucketList.add_contact (S (S depth)) now self c) = Raise NameError
  \/ snd (BucketList.add_contact (S (S depth)) now self c) = Raise AttributeError.
Proof.
  intros Hok Hv Hour.
  destruct self as [bs our]. cbn [BucketList.our_id] in Hour.
  destruct (table_found _ _ (proj1 Hok) Hv) as (pre & b & post & E & Hpre & Hin & Hidx).
  cbn [BucketList.buckets] in E. subst bs.
  assert (Hb : bucket_ok b).
  { destruct Hok as [_ Hf]. cbn [BucketList.buckets] in Hf.
    apply Forall_app in Hf as [_ Hf]. apply Forall_cons in Hf as [Hb _]. exact Hb. }
  destruct (KBucket.is_full b) eqn:Hfull.
  2:{ left. apply add_contact_room; assumption. }
  rewrite (add_contact_step (S depth) now our pre post b c Hidx Hour).
  destruct (KBucket.contains b (Contact.id c)) eqn:Hc.
  { left. destruct (contains_index b _ Hc) as [i Hi].
    unfold KBucket.replace_contact. cbn [Contact.id Contact.touch]. rewrite Hi. reflexivity. }
  rewrite Hfull.
  assert (Hne : KBucket.contacts b <> []).
  { intros E. unfold KBucket.is_full in Hfull. rewrite E in Hfull. discriminate. }
  destruct (can_split_returns (BucketList.mk (pre ++ b :: post) our) b Hne) as [v ->].
  destruct v.
  - destruct (split_full_bucket b Hb Hfull) as (k1 & k2 & Hs & Hf1 & Hf2). rewrite Hs.
    destruct Hb as (Hr & _ & _).
    destruct (split_inv b k1 k2 Hs Hr) as (m & _ & Hb1 & Hb2 & Hm & _).
    injection Hb1 as Hl1 Hh1. injection Hb2 as Hl2 Hh2.
    left. set (c' := Contact.touch now c).
    assert (Hour' : ID.eq our (Contact.id c') = false) by exact Hour.
    destruct (KBucket.is_in_range k1 (Contact.id c)) eqn:Hin1.
    + apply add_contact_room; try assumption.
      rewrite first_in_range_app_miss by exact Hpre. cbn [BucketList.first_in_range].
      change (Contact.id c') with (Contact.id c). rewrite Hin1. lia.
    + assert (Hin2 : KBucket.is_in_range k2 (Contact.id c) = true).
      { unfold KBucket.is_in_range in *. rewrite Hl1, Hh1 in Hin1. rewrite Hl2, Hh2.
        apply andb_true_iff in Hin as [Ha Hb']. apply Z.leb_le in Ha, Hb'.
        apply andb_false_iff in Hin1 as [Hin1 | Hin1]; apply Z.leb_gt in Hin1;
          apply andb_true_iff; split; apply Z.leb_le; lia. }
      replace (pre ++ k1 :: k2 :: post) with ((pre ++ [k1]) ++ k2 :: post)
        by (rewrite <- app_assoc; reflexivity).
      apply add_contact_room; try assumption.
      rewrite <- app_assoc. cbn [app].
      rewrite first_in_range_app_miss by exact Hpre. cbn [BucketList.first_in_range].
      change (Contact.id c') with (Contact.id c). rewrite Hin1, Hin2.
      rewrite length_app. simpl. lia.
  - destruct (evict_raises b Hne) as [-> | ->]; [right; right | right; left];
      reflexivity.
Qed.

End Outcome.

(** ** The bucket lists that [add_contact] builds *)

Section ReachableLists.

(** X1: in every bucket list built by [add_contact] calls from the initial
    one, the ranges are a chain from 0 to 2^160, and for every ID
    [get_kbucket] returns, not raises: it returns the first bucket of the
    list that has the ID in range. *)
Theorem get_kbucket_finds_the_first_bucket_in_range
    (our_id : ID.t) (self : BucketList.t) (x : ID.t) :
  reachable our_id self ->
  ID.valid x ->
  chain 0 (BucketList.buckets self) (2 ^ 160)
  /\ exists pre b post,
       BucketList.buckets self = pre ++ b :: post
       /\ Forall (fun b' => KBucket.is_in_range b' x = false) pre
       /\ KBucket.is_in_range b x = true
       /\ BucketList.get_kbucket self x = Ok b.
Proof.
  intros Hr Hv. destruct (reachable_table_ok _ _ Hr) as [Hc _].
  split; [exact Hc|].
  destruct (table_found self x Hc Hv) as (pre & b & post & E & Hpre & Hin & Hidx).
  exists pre, b, post. repeat split; try assumption.
  unfold BucketList.get_kbucket, BucketList._get_kbucket_index.
  rewrite E, Hidx, getitem_middle. reflexivity.
Qed.

Lemma get_kbucket_finds_the_first_bucket_in_range_witness :
  chain 0 (BucketList.buckets Scenario.table21) (2 ^ 160)
  /\ exists pre b post,
       BucketList.buckets Scenario.table21 = pre ++ b :: post
       /\ Forall (fun b' => KBucket.is_in_range b' 15 = false) pre
       /\ KBucket.is_in_range b 15 = true
       /\ BucketList.get_kbucket Scenario.table21 15 = Ok b.
Proof.
  apply (get_kbucket_finds_the_first_bucket_in_range ID.mid Scenario.table21 15).
  - exact table21_reachable.
  - unfold ID.valid, ID.MIN_ID, ID.MAX_ID. lia.
Defined.

(** X2: every bucket of a bucket list built by [add_contact] calls holds at
    most K contacts, no two of them with the same ID, each with its ID
    between the bounds of the bucket. *)
Theorem buckets_hold_at_most_K_distinct_contacts_in_range
    (our_id : ID.t) (self : BucketList.t) (b : KBucket.t) :
  reachable our_id self ->
  In b (BucketList.buckets self) ->
  Z.of_nat (length (KBucket.contacts b)) <= Constants.K
  /\ NoDup (map Contact.id (KBucket.contacts b))
  /\ Forall (fun c => KBucket._low b <= Contact.id c <= KBucket._high b)
       (KBucket.contacts b).
Proof.
  intros Hr Hb. destruct (reachable_table_ok _ _ Hr) as [_ Hf].
  rewrite List.Forall_forall in Hf. destruct (Hf b Hb) as (Hrange & Hlen & Hnd).
  split; [unfold Constants.K; lia|]. split; [exact Hnd|].
  eapply Forall_impl; [exact Hrange|]. intros c Hc. cbn beta in Hc.
  unfold KBucket.is_in_range in Hc. apply andb_true_iff in Hc as [H1 H2].
  apply Z.leb_le in H1, H2. lia.
Qed.

Lemma buckets_hold_at_most_K_distinct_contacts_in_range_witness :
  Z.of_nat (length (KBucket.contacts (nth 1 (BucketList.buckets Scenario.table21) KBucket.init)))
  <= Constants.K
  /\ NoDup (map Contact.id
              (KBucket.contacts (nth 1 (BucketList.buckets Scenario.table21) KBucket.init)))
  /\ Forall
       (fun c =>
          KBucket._low (nth 1 (BucketList.buckets Scenario.table21) KBucket.init)
          <= Contact.id c
          <= KBucket._high (nth 1 (BucketList.buckets Scenario.table21) KBucket.init))
       (KBucket.contacts (nth 1 (BucketList.buckets Scenario.table21) KBucket.init)).
Proof.
  apply (buckets_hold_at_most_K_distinct_contacts_in_range ID.mid Scenario.table21).
  - exact table21_reachable.
  - apply nth_In. vm_compute. lia.
Defined.

(** X3: on a bucket list built by [add_contact] calls, [add_contact] of a
    contact with our own ID raises [OurNodeCannotBeAContactError] and leaves
    the list as it is; for every other ID, with room for two nested calls, it
    returns or raises from the eviction branch ([NameError], or
    [AttributeError] when the oldest contact has no protocol): it raises none
    of [RecursionError], [TooManyContactsError], [OutOfRangeError],
    [IndexError], [ValueError]. *)
Theorem add_contact_raises_only_for_us_or_from_eviction
    (our_id : ID.t) (depth : nat) (now : Z) (self : BucketList.t) (c : Contact.t) :
  reachable our_id self ->
  ID.valid (Contact.id c) ->
  (Contact.id c = our_id ->
   BucketList.add_contact (S (S depth)) now self c
   = (self, Raise OurNodeCannotBeAContactError))
  /\ (Contact.id c <> our_id ->
      snd (BucketList.add_contact (S (S depth)) now self c) = Ok tt
      \/ snd (BucketList.add_contact (S (S depth)) now self c) = Raise NameError
      \/ snd (BucketList.add_contact (S (S depth)) now self c) = Raise AttributeError).
Proof.
  intros Hr Hv. pose proof (reachable_our_id _ _ Hr) as Hour. split.
  - intros E. cbn [BucketList.add_contact]. unfold ID.eq.
    rewrite Hour, E, Z.eqb_refl. reflexivity.
  - intros Hne. apply add_contact_outcome; [exact (reachable_table_ok _ _ Hr) | exact Hv|].
    unfold ID.eq. rewrite Hour. apply Z.eqb_neq. congruence.
Qed.

Lemma add_contact_raises_only_for_us_or_from_eviction_witness :
  (Contact.id (Scenario.contact 7) = ID.mid ->
   BucketList.add_contact 2 30 Scenario.table21 (Scenario.contact 7)
   = (Scenario.table21, Raise OurNodeCannotBeAContactError))
  /\ (Contact.id (Scenario.contact 7) <> ID.mid ->
      snd (BucketList.add_contact 2 30 Scenario.table21 (Scenario.contact 7)) = Ok tt
      \/ snd (BucketList.add_contact 2 30 Scenario.table21 (Scenario.contact 7))
         = Raise NameError
      \/ snd (BucketList.add_contact 2 30 Scenario.table21 (Scenario.contact 7))
         = Raise AttributeError).
Proof.
  apply (add_contact_raises_only_for_us_or_from_eviction ID.mid 0 30 Scenario.table21
           (Scenario.contact 7)).
  - exact table21_reachable.
  - unfold ID.valid, ID.MIN_ID, ID.MAX_ID. simpl. lia.
Defined.

(** X4: [add_contact] on a bucket list built by [add_contact] calls never
    drops a contact: the IDs of the list are afterwards the same, or the same
    and the new one; they are the same whenever the call raises, also when a
    bucket was split before. *)
Theorem add_contact_keeps_the_ids
    (our_id : ID.t) (depth : nat) (now : Z) (self : BucketList.t) (c : Contact.t) :
  reachable our_id self ->
  ID.valid (Contact.id c) ->
  (Permutation (ids (fst (BucketList.add_contact depth now self c))) (ids self)
   \/ Permutation (ids (fst (BucketList.add_contact depth now self c)))
        (Contact.id c :: ids self))
  /\ (forall e, snd (BucketList.add_contact depth now self c) = Raise e ->
                Permutation (ids (fst (BucketList.add_contact depth now self c)))
                  (ids self)).
Proof.
  intros Hr Hv.
  destruct (add_contact_spec depth now self c (reachable_table_ok _ _ Hr) Hv)
    as (_ & H2 & H3 & _).
  split; assumption.
Qed.

Lemma add_contact_keeps_the_ids_witness :
  (Permutation
     (ids (fst (BucketList.add_contact 5 30 Scenario.table21 (Scenario.contact 40))))
     (ids Scenario.table21)
   \/ Permutation
        (ids (fst (BucketList.add_contact 5 30 Scenario.table21 (Scenario.contact 40))))
        (Contact.id (Scenario.contact 40) :: ids Scenario.table21))
  /\ (forall e,
         snd (BucketList.add_contact 5 30 Scenario.table21 (Scenario.contact 40)) = Raise e ->
         Permutation
           (ids (fst (BucketList.add_contact 5 30 Scenario.table21 (Scenario.contact 40))))
           (ids Scenario.table21)).
Proof.
  apply (add_contact_keeps_the_ids ID.mid 5 30 Scenario.table21 (Scenario.contact 40)).
  - exact table21_reachable.
  - unfold ID.valid, ID.MIN_ID, ID.MAX_ID. simpl. lia.
Defined.

(** X5: when [add_contact] returns on a bucket list built by [add_contact]
    calls, the ID of the contact is among the IDs of the list, so the contact
    is offered by [contacts()]. *)
Theorem add_contact_returns_with_the_id_in_the_list
    (our_id : ID.t) (depth : nat) (now : Z) (self : BucketList.t) (c : Contact.t) :
  reachable our_id self ->
  ID.valid (Contact.id c) ->
  snd (BucketList.add_contact depth now self c) = Ok tt ->
  In (Contact.id c) (ids (fst (BucketList.add_contact depth now self c))).
Proof.
  intros Hr Hv Hok.
  destruct (add_contact_spec depth now self c (reachable_table_ok _ _ Hr) Hv)
    as (_ & _ & _ & H4).
  exact (H4 tt Hok).
Qed.

Lemma add_contact_returns_with_the_id_in_the_list_witness :
  In (Contact.id (Scenario.contact 40))
    (ids (fst (BucketList.add_contact 5 30 Scenario.table21 (Scenario.contact 40)))).
Proof.
  apply (add_contact_returns_with_the_id_in_the_list ID.mid 5 30 Scenario.table21
           (Scenario.contact 40)).
  - exact table21_reachable.
  - unfold ID.valid, ID.MIN_ID, ID.MAX_ID. simpl. lia.
  - vm_compute. reflexivity.
Defined.

End ReachableLists.

(** ** A contact that its bucket knows *)

Section KnownContact.



End KnownContact.

(** ** Every outcome of a split *)

Section SplitOutcomes.

Lemma split_loop_errors (midpoint : Z) (cs : list Contact.t) (k1 k2 : KBucket.t) (e : exn) :
  fold_left
    (fun acc c =>
       let* (k1, k2) := acc in
       if Contact.id c <? midpoint
       then let* k1' := KBucket.add_contact k1 c in Ok (k1', k2)
       else let* k2' := KBucket.add_contact k2 c in Ok (k1, k2'))
    cs (Ok (k1, k2))
  = Raise e ->
  e = TooManyContactsError \/ e = OutOfRangeError.
Proof.
  assert (Hadd : forall k c k' e', KBucket.add_contact k c = Raise e' ->
                   k' = k -> e' = TooManyContactsError \/ e' = OutOfRangeError).
  { intros k c k' e' H _. unfold KBucket.add_contact in H.
    destruct (KBucket.is_full k); [injection H as <-; left; reflexivity|].
    destruct (negb _); [injection H as <-; right; reflexivity | discriminate]. }
  revert k1 k2. induction cs as [|c cs IH]; intros k1 k2; [discriminate|].
  cbn [fold_left bind]. destruct (Contact.id c <? midpoint).
  - destruct (KBucket.add_contact k1 c) as [k|e'] eqn:Ea; cbn [bind].
    + apply IH.
    + rewrite split_loop_raise. intros [= <-]. exact (Hadd _ _ k1 _ Ea eq_refl).
  - destruct (KBucket.add_contact k2 c) as [k|e'] eqn:Ea; cbn [bind].
    + apply IH.
    + rewrite split_loop_raise. intros [= <-]. exact (Hadd _ _ k2 _ Ea eq_refl).
Qed.

(** X7: what [split] does on any bucket.  It raises [StatisticsError] on a
    bucket without contacts, and otherwise only [TooManyContactsError] or
    [OutOfRangeError], from the [add_contact] of a child.  When it returns,
    the midpoint [m] is the high median of the contact IDs, the ID of one of
    the contacts; the children have the bounds [low, m] and [m, high]; the
    first holds the contacts with an ID below [m] and the second the other
    ones, each in their order, so that no contact is lost or doubled; and
    every contact of a child is in the range of the child. *)
Theorem split_outcomes (b : KBucket.t) :
  match KBucket.split b with
  | Raise e =>
      (e = StatisticsError /\ KBucket.contacts b = [])
      \/ (KBucket.contacts b <> []
          /\ (e = TooManyContactsError \/ e = OutOfRangeError))
  | Ok (k1, k2) =>
      exists m,
        Py.median_high (map Contact.id (KBucket.contacts b)) = Ok m
        /\ In m (map Contact.id (KBucket.contacts b))
        /\ (KBucket._low k1, KBucket._high k1) = (KBucket._low b, m)
        /\ (KBucket._low k2, KBucket._high k2) = (m, KBucket._high b)
        /\ KBucket.contacts k1
           = List.filter (fun c => Contact.id c <? m) (KBucket.contacts b)
        /\ KBucket.contacts k2
           = List.filter (fun c => negb (Contact.id c <? m)) (KBucket.contacts b)
        /\ Permutation (KBucket.contacts k1 ++ KBucket.contacts k2) (KBucket.contacts b)
        /\ contacts_in_range k1 /\ contacts_in_range k2
  end.
Proof.
  destruct (KBucket.contacts b) as [|c0 cs] eqn:Ecs.
  { unfold KBucket.split. rewrite Ecs. cbn. left. split; reflexivity. }
  assert (Hids : map Contact.id (KBucket.contacts b) <> []) by (rewrite Ecs; discriminate).
  destruct (median_high_sorted _ Hids) as [Hmed Hmed'].
  unfold KBucket.split. rewrite <- Ecs, Hmed. cbn [bind].
  set (m := nth _ _ 0) in *.
  destruct (fold_left _ (KBucket.contacts b) _) as [[k1 k2]|e] eqn:Ef.
  2:{ right. split; [rewrite Ecs; discriminate|]. eapply split_loop_errors. exact Ef. }
  apply split_loop_inv in Ef as (H1 & H2 & H3 & H4 & H5 & H6).
  cbn [KBucket.contacts KBucket._low KBucket._high app] in *.
  injection H1 as Hl1 Hh1. injection H2 as Hl2 Hh2.
  exists m. split; [rewrite Hmed'; exact Hmed|].
  split.
  { apply (Permutation_in _ (sorted_perm (fun z => z) _)). apply median_high_in, Hmed. }
  split; [congruence|]. split; [congruence|]. split; [exact H3|]. split; [exact H4|].
  split; [rewrite H3, H4; apply filter_split_perm|].
  unfold contacts_in_range, KBucket.is_in_range in *.
  rewrite H3, H4, Hl1, Hh1, Hl2, Hh2. cbn [KBucket._low KBucket._high] in *.
  split; assumption.
Qed.

End SplitOutcomes.

(** ** The shared bits of a bucket *)

Section SharedBits.

Lemma first_mismatch_spec (a b : list ascii) (i0 : nat) :
  (length b <= length a)%nat ->
  match KBucket.first_mismatch a b i0 with
  | Some i =>
      exists k x y,
        i = (i0 + k)%nat /\ firstn k a = firstn k b
        /\ nth_error a k = Some x /\ nth_error b k = Some y /\ x <> y
  | None => firstn (length b) a = b
  end.
Proof.
  revert a i0. induction b as [|y b IH]; intros a i0 Hlen.
  - destruct a; reflexivity.
  - destruct a as [|x a]; [simpl in Hlen; lia|]. cbn [KBucket.first_mismatch].
    destruct (Ascii.eqb x y) eqn:E.
    + apply Ascii.eqb_eq in E. subst y.
      specialize (IH a (S i0) ltac:(simpl in Hlen; lia)).
      destruct (KBucket.first_mismatch a b (S i0)) as [i|].
      * destruct IH as (k & x' & y' & -> & Hf & Ha & Hb & Hne).
        exists (S k), x', y'. cbn [firstn nth_error]. rewrite Hf.
        repeat split; try assumption. lia.
      * cbn [length firstn]. rewrite IH. reflexivity.
    + apply Ascii.eqb_neq in E. exists 0%nat, x, y. cbn. repeat split; [lia | exact E].
Qed.

(** [longest_shared_prefix_str]: the result starts both strings, and is one
    of them or stops where they differ. *)
Lemma longest_shared_prefix_spec (a b : list ascii) :
  (exists k, a = KBucket.longest_shared_prefix_str a b ++ k)
  /\ (exists k, b = KBucket.longest_shared_prefix_str a b ++ k)
  /\ (KBucket.longest_shared_prefix_str a b = a
      \/ KBucket.longest_shared_prefix_str a b = b
      \/ exists x y,
           nth_error a (length (KBucket.longest_shared_prefix_str a b)) = Some x
           /\ nth_error b (length (KBucket.longest_shared_prefix_str a b)) = Some y
           /\ x <> y).
Proof.
  assert (Hgen : forall l s : list ascii, (length s <= length l)%nat ->
            let r := match KBucket.first_mismatch l s 0 with
                     | Some i => firstn i l
                     | None => s
                     end in
            (exists k, l = r ++ k) /\ (exists k, s = r ++ k)
            /\ (r = s \/ exists x y, nth_error l (length r) = Some x
                                    /\ nth_error s (length r) = Some y /\ x <> y)).
  { intros l s Hlen. pose proof (first_mismatch_spec l s 0 Hlen) as H.
    destruct (KBucket.first_mismatch l s 0) as [i|]; cbn zeta.
    - destruct H as (k & x & y & -> & Hf & Hl & Hs & Hne). cbn [Nat.add].
      assert (k < length l)%nat by (apply nth_error_Some; congruence).
      split; [exists (skipn k l); symmetry; apply firstn_skipn|].
      split; [exists (skipn k s); rewrite Hf; symmetry; apply firstn_skipn|].
      right. exists x, y. rewrite length_firstn, Nat.min_l by lia. tauto.
    - split; [exists (skipn (length s) l); rewrite <- H at 1; symmetry; apply firstn_skipn|].
      split; [exists []; symmetry; apply app_nil_r|]. left. reflexivity. }
  unfold KBucket.longest_shared_prefix_str.
  destruct (length a <? length b)%nat eqn:E.
  - apply Nat.ltb_lt in E. destruct (Hgen b a ltac:(lia)) as (H1 & H2 & H3).
    split; [exact H2|]. split; [exact H1|].
    destruct H3 as [H3 | (x & y & Hx & Hy & Hne)]; [left; exact H3|].
    right. right. exists y, x. repeat split; try assumption. congruence.
  - apply Nat.ltb_ge in E. destruct (Hgen a b E) as (H1 & H2 & H3).
    split; [exact H1|]. split; [exact H2|].
    destruct H3 as [H3 | H3]; [right; left; exact H3 | right; right; exact H3].
Qed.

Lemma nth_error_prefix {A : Type} (s r k : list A) (n : nat) (x : A) :
  s = r ++ k -> nth_error r n = Some x -> nth_error s n = Some x.
Proof.
  intros -> H. rewrite nth_error_app1; [exact H|]. apply nth_error_Some. congruence.
Qed.

(** The loop of [shared_bits]: its result starts the prefix it began with and
    the digits of every contact, and no longer string does. *)
Lemma shared_bits_loop (cs : list Contact.t) (prefix : list ascii) :
  let r := fold_left
             (fun longest_prefix contact =>
                let id_bin := skipn 2 (ID.bin (Contact.id contact)) in
                KBucket.longest_shared_prefix_str id_bin longest_prefix)
             cs prefix in
  common_prefix r (prefix :: map digits cs)
  /\ not_extensible r (prefix :: map digits cs).
Proof.
  revert prefix. induction cs as [|c cs IH]; intros prefix.
  - cbn. split.
    + intros s [<- | []]. exists []. symmetry. apply app_nil_r.
    + left. left. reflexivity.
  - cbn [fold_left map]. cbv zeta in *. fold (digits c).
    set (p' := KBucket.longest_shared_prefix_str (digits c) prefix).
    specialize (IH p'). set (r := fold_left _ cs p') in *.
    destruct IH as [Hcp Hne].
    destruct (longest_shared_prefix_spec (digits c) prefix) as ((kc & Hc) & (kp & Hp) & Hend).
    fold p' in Hc, Hp, Hend.
    destruct (Hcp p' (or_introl eq_refl)) as [kr Hr].
    split.
    + intros s [<- | [<- | Hs]].
      * exists (kr ++ kp). rewrite Hp at 1. rewrite Hr at 1. symmetry. apply app_assoc.
      * exists (kr ++ kc). rewrite Hc at 1. rewrite Hr at 1. symmetry. apply app_assoc.
      * apply Hcp. right. exact Hs.
    + assert (Hlift : forall s x, In s (p' :: map digits cs) ->
                nth_error s (length r) = Some x ->
                exists s', In s' (prefix :: digits c :: map digits cs)
                           /\ nth_error s' (length r) = Some x).
      { intros s x [<- | Hs] Hx.
        - exists prefix. split; [left; reflexivity|]. eapply nth_error_prefix; eassumption.
        - exists s. split; [right; right; exact Hs | exact Hx]. }
      destruct Hne as [[E | Hin] | (s1 & s2 & x & y & H1 & H2 & Hx & Hy & Hxy)].
      * destruct Hend as [E' | [E' | (x & y & Hx & Hy & Hxy)]].
        -- left. right. left. congruence.
        -- left. left. congruence.
        -- right. exists (digits c), prefix, x, y. rewrite <- E.
           repeat split; try assumption; [right; left | left]; reflexivity.
      * left. right. right. exact Hin.
      * destruct (Hlift s1 x H1 Hx) as (s1' & H1' & Hx').
        destruct (Hlift s2 y H2 Hy) as (s2' & H2' & Hy').
        right. exists s1', s2', x, y. repeat split; assumption.
Qed.

(** X8: [shared_bits] raises [IndexError] on a bucket without contacts.  On
    any other bucket it returns a string that starts the digits of every
    contact (the binary digits of the ID without the first two), and no
    longer string does: it is the digits of a contact, or two contacts differ
    right after it.  [depth] is its length. *)
Theorem shared_bits_is_the_longest_common_prefix (b : KBucket.t) :
  match KBucket.shared_bits b with
  | Raise e =>
      e = IndexError /\ KBucket.contacts b = [] /\ KBucket.depth b = Raise IndexError
  | Ok bits =>
      KBucket.contacts b <> []
      /\ common_prefix bits (map digits (KBucket.contacts b))
      /\ not_extensible bits (map digits (KBucket.contacts b))
      /\ KBucket.depth b = Ok (Z.of_nat (length bits))
  end.
Proof.
  unfold KBucket.depth, KBucket.shared_bits.
  destruct (KBucket.contacts b) as [|c0 cs]; [cbn; repeat split; reflexivity|].
  assert (Hg : Py.getitem (c0 :: cs) 0 = Ok c0).
  { destruct (getitem_in_bounds (c0 :: cs) 0) as [x [-> Hx]]; [simpl; lia|].
    simpl in Hx. congruence. }
  rewrite Hg. cbn [bind skipn].
  destruct (shared_bits_loop cs (digits c0)) as [H1 H2].
  split; [discriminate|]. split; [exact H1|]. split; [exact H2 | reflexivity].
Qed.

End SharedBits.

(** ** When a bucket can split *)

Section CanSplit.

(** X9: for a bucket whose first contact has a valid ID, [depth] returns a
    number between 0 and 158, below the 160 it is reduced by, so that
    [can_split] answers whether the bucket has our ID in range or a depth
    other than 0: the remainder by [B] never matters. *)
Theorem can_split_tests_range_or_nonzero_depth
    (self : BucketList.t) (b : KBucket.t) (c0 : Contact.t) (cs : list Contact.t) :
  KBucket.contacts b = c0 :: cs ->
  ID.valid (Contact.id c0) ->
  exists d,
    KBucket.depth b = Ok d
    /\ 0 <= d <= 158
    /\ BucketList.can_split self b
       = Ok (KBucket.is_in_range b (BucketList.our_id self) || negb (d =? 0)).
Proof.
  intros E Hv. destruct (depth_at_most_158 b c0 cs E Hv) as (d & Hd & Hb).
  exists d. split; [exact Hd|]. split; [exact Hb|].
  unfold BucketList.can_split. rewrite Hd. cbn [bind].
  destruct (KBucket.is_in_range b _); [reflexivity|]. cbn [orb].
  unfold Constants.B. rewrite Z.mod_small by lia. reflexivity.
Qed.

Lemma can_split_tests_range_or_nonzero_depth_witness :
  exists d,
    KBucket.depth Scenario.singleton5 = Ok d
    /\ 0 <= d <= 158
    /\ BucketList.can_split (BucketList.init 7) Scenario.singleton5
       = Ok (KBucket.is_in_range Scenario.singleton5
               (BucketList.our_id (BucketList.init 7)) || negb (d =? 0)).
Proof.
  apply (can_split_tests_range_or_nonzero_depth (BucketList.init 7) Scenario.singleton5
           (Scenario.contact 5) []).
  - reflexivity.
  - unfold ID.valid, ID.MIN_ID, ID.MAX_ID. simpl. lia.
Defined.

End CanSplit.

(** ** Replacing a contact of a bucket *)

Section ReplaceContact.




End ReplaceContact.

(** ** The peers that [get_closer_nodes] appends *)

Section CloserNodes.

Lemma existsb_id (x : Z) (l : list Z) : existsb (Z.eqb x) l = true <-> In x l.
Proof.
  rewrite existsb_exists. split.
  - intros (y & Hy & E). apply Z.eqb_eq in E. congruence.
  - intros H. exists x. split; [exact H | apply Z.eqb_refl].
Qed.

(** One of the two loops of [get_closer_nodes], for the test [cond] on the
    distance: what it appends, and that it leaves no ID twice and no peer
    that passes the test out. *)
Lemma dedup_loop (cond : Contact.t -> bool) (peers acc : list Contact.t) :
  exists added,
    fold_left
      (fun known p =>
         if cond p && negb (existsb (Z.eqb (Contact.id p)) (map Contact.id known))
         then known ++ [p] else known)
      peers acc
    = acc ++ added
    /\ (forall p, In p added ->
          In p peers /\ cond p = true /\ ~ In (Contact.id p) (map Contact.id acc))
    /\ (NoDup (map Contact.id acc) -> NoDup (map Contact.id (acc ++ added)))
    /\ (forall p, In p peers -> cond p = true ->
          In (Contact.id p) (map Contact.id (acc ++ added))).
Proof.
  revert acc. induction peers as [|p peers IH]; intros acc.
  { exists []. rewrite app_nil_r. cbn [fold_left].
    split; [reflexivity|]. split; [intros q []|]. split; [tauto | intros q []]. }
  cbn [fold_left].
  destruct (cond p && negb (existsb (Z.eqb (Contact.id p)) (map Contact.id acc))) eqn:E.
  - apply andb_true_iff in E as [Ec En]. apply negb_true_iff in En.
    assert (Hnew : ~ In (Contact.id p) (map Contact.id acc)).
    { intros H. apply existsb_id in H. congruence. }
    destruct (IH (acc ++ [p])) as (added & Hf & Hel & Hnd & Hall).
    exists (p :: added). rewrite Hf, <- app_assoc. cbn [app].
    split; [reflexivity|]. split; [|split].
    + intros q [<- | Hq]; [repeat split; [left; reflexivity | exact Ec | exact Hnew]|].
      destruct (Hel q Hq) as (H1 & H2 & H3). repeat split; [right; exact H1 | exact H2|].
      intros H. apply H3. rewrite map_app. apply in_or_app. left. exact H.
    + intros Hacc. replace (acc ++ p :: added) with ((acc ++ [p]) ++ added)
        by (rewrite <- app_assoc; reflexivity).
      apply Hnd. rewrite map_app. cbn [map]. apply NoDup_app. split; [exact Hacc|]. split.
      * intros x Hx Hx'. apply list_elem_of_In in Hx'. destruct Hx' as [<- | []].
        apply Hnew, list_elem_of_In, Hx.
      * apply NoDup_singleton.
    + replace (acc ++ p :: added) with ((acc ++ [p]) ++ added)
        by (rewrite <- app_assoc; reflexivity).
      intros q [<- | Hq] Hc; [|exact (Hall q Hq Hc)].
      rewrite !map_app. apply in_or_app. left. apply in_or_app. right. left. reflexivity.
  - destruct (IH acc) as (added & Hf & Hel & Hnd & Hall).
    exists added. split; [exact Hf|]. split; [|split; [exact Hnd|]].
    + intros q Hq. destruct (Hel q Hq) as (H1 & H2 & H3). repeat split; [right | |]; assumption.
    + intros q [<- | Hq] Hc; [|exact (Hall q Hq Hc)].
      rewrite Hc in E. cbn [andb] in E. apply negb_false_iff, existsb_id in E.
      rewrite map_app. apply in_or_app. left. exact E.
Qed.

(** X11: [get_closer_nodes] only appends to the two lists.  What it appends
    to the closer list are peers of the answer that have neither our ID nor
    the ID of the queried contact, are strictly closer to the key than the
    queried contact, and whose ID the closer list did not hold; what it
    appends to the further list are such peers that are not closer, and whose
    ID the further list did not hold.  No such peer is left out: the ID of
    every peer of the answer that is neither us nor the queried contact is
    afterwards in the closer list when it is closer, in the further list when
    it is not.  The result tells whether the answer carried a value. *)
Theorem get_closer_nodes_appends_the_new_peers
    (self : Router.t) (key : ID.t) (node_to_query : Contact.t)
    (rpc_call : ID.t -> Contact.t -> list Contact.t * option Contact.t * option string)
    (closer further : list Contact.t) :
  let our := Contact.id (Node.our_contact (Router.node self)) in
  let d := Z.lxor (Contact.id node_to_query) key in
  let '(contacts, found_by, val) := rpc_call key node_to_query in
  let '(closer', further', found) :=
    Router.get_closer_nodes self key node_to_query rpc_call closer further in
  exists added_closer added_further,
    closer' = closer ++ added_closer
    /\ further' = further ++ added_further
    /\ (forall p, In p added_closer ->
          In p contacts /\ Contact.id p <> our
          /\ Contact.id p <> Contact.id node_to_query
          /\ Z.lxor (Contact.id p) key < d
          /\ ~ In (Contact.id p) (map Contact.id closer))
    /\ (forall p, In p added_further ->
          In p contacts /\ Contact.id p <> our
          /\ Contact.id p <> Contact.id node_to_query
          /\ d <= Z.lxor (Contact.id p) key
          /\ ~ In (Contact.id p) (map Contact.id further))
    /\ (forall p, In p contacts -> Contact.id p <> our ->
          Contact.id p <> Contact.id node_to_query ->
          if Z.lxor (Contact.id p) key <? d
          then In (Contact.id p) (map Contact.id closer')
          else In (Contact.id p) (map Contact.id further'))
    /\ found = match val with Some _ => true | None => false end.
Proof.
  intros our d. unfold Router.get_closer_nodes.
  destruct (rpc_call key node_to_query) as [[contacts found_by] val].
  set (peers := List.filter _ contacts).
  assert (Hpeers : forall p, In p peers <->
            In p contacts /\ Contact.id p <> our
            /\ Contact.id p <> Contact.id node_to_query).
  { intros p. unfold peers. rewrite List.filter_In, exclusion_ignores_the_lists.
    rewrite negb_true_iff, orb_false_iff, !Z.eqb_neq. fold our. tauto. }
  fold d.
  destruct (dedup_loop (fun p => Z.lxor (Contact.id p) key <? d) peers closer)
    as (ac & Hfc & Helc & _ & Hallc).
  destruct (dedup_loop (fun p => d <=? Z.lxor (Contact.id p) key) peers further)
    as (af & Hff & Helf & _ & Hallf).
  cbv beta in *. rewrite Hfc, Hff.
  exists ac, af. split; [reflexivity|]. split; [reflexivity|].
  split; [|split; [|split; [|reflexivity]]].
  - intros p Hp. destruct (Helc p Hp) as (H1 & H2 & H3). apply Hpeers in H1.
    apply Z.ltb_lt in H2. tauto.
  - intros p Hp. destruct (Helf p Hp) as (H1 & H2 & H3). apply Hpeers in H1.
    apply Z.leb_le in H2. tauto.
  - intros p Hp Ho Hq. assert (Hin : In p peers) by (apply Hpeers; tauto).
    destruct (Z.lxor (Contact.id p) key <? d) eqn:E.
    + exact (Hallc p Hin E).
    + apply Z.ltb_ge in E. apply Hallf; [exact Hin | apply Z.leb_le; exact E].
Qed.

(** X12: [get_closer_nodes] keeps each of the two lists free of repeated IDs:
    a closer list without two contacts of one ID stays so, and so does a
    further list. *)
Theorem get_closer_nodes_repeats_no_id_within_a_list
    (self : Router.t) (key : ID.t) (node_to_query : Contact.t)
    (rpc_call : ID.t -> Contact.t -> list Contact.t * option Contact.t * option string)
    (closer further : list Contact.t) :
  NoDup (map Contact.id closer) ->
  NoDup (map Contact.id further) ->
  NoDup (map Contact.id
           (fst (fst (Router.get_closer_nodes self key node_to_query rpc_call
                        closer further))))
  /\ NoDup (map Contact.id
              (snd (fst (Router.get_closer_nodes self key node_to_query rpc_call
                           closer further)))).
Proof.
  intros Hc Hf. unfold Router.get_closer_nodes.
  destruct (rpc_call key node_to_query) as [[contacts found_by] val].
  set (peers := List.filter _ contacts).
  set (d := Z.lxor (Contact.id node_to_query) key).
  destruct (dedup_loop (fun p => Z.lxor (Contact.id p) key <? d) peers closer)
    as (ac & Hfc & _ & Hndc & _).
  destruct (dedup_loop (fun p => d <=? Z.lxor (Contact.id p) key) peers further)
    as (af & Hff & _ & Hndf & _).
  cbv beta in *. rewrite Hfc, Hff. cbn [fst snd]. split; auto.
Qed.

Lemma get_closer_nodes_repeats_no_id_within_a_list_witness :
  NoDup (map Contact.id
           (fst (fst (Router.get_closer_nodes (Router.init Scenario.empty_node) 0
                        (Scenario.contact 8)
                        (Scenario.answer [Scenario.contact 1; Scenario.contact 9;
                                          Scenario.contact 1])
                        [] [Scenario.contact 9]))))
  /\ NoDup (map Contact.id
              (snd (fst (Router.get_closer_nodes (Router.init Scenario.empty_node) 0
                           (Scenario.contact 8)
                           (Scenario.answer [Scenario.contact 1; Scenario.contact 9;
                                             Scenario.contact 1])
                           [] [Scenario.contact 9])))).
Proof.
  apply (get_closer_nodes_repeats_no_id_within_a_list (Router.init Scenario.empty_node) 0
           (Scenario.contact 8)
           (Scenario.answer [Scenario.contact 1; Scenario.contact 9; Scenario.contact 1])
           [] [Scenario.contact 9]).
  - apply (bool_decide_unpack _). vm_compute. exact I.
  - apply (bool_decide_unpack _). vm_compute. exact I.
Defined.

End CloserNodes.

(** ** The seed of a lookup and the closest nodes of a bucket *)

Section SeedFacts.

(** [get_close_contacts] returns, and what it returns: no excluded ID, at most
    twenty contacts of the list, in the order of their distance. *)
Lemma get_close_contacts_facts (self : BucketList.t) (key exclude : ID.t) :
  exists l,
    BucketList.get_close_contacts self key exclude = Ok l
    /\ Forall (fun c => Contact.id c <> exclude) l
    /\ (length l <= 20)%nat
    /\ StronglySorted (key_le (distance key)) l
    /\ (forall c, In c l -> In c (BucketList.contacts self)).
Proof.
  unfold BucketList.get_close_contacts, BucketList.contacts.
  rewrite flat_map_filter.
  set (kept := List.filter _ (flat_map KBucket.contacts (BucketList.buckets self))).
  change (fun c : Contact.t => ID.xor (Contact.id c) key) with (distance key).
  set (s := Py.sorted (distance key) kept).
  change (Z.to_nat Constants.K) with 20%nat.
  assert (Hlen : (length (firstn 20 s) <= 20)%nat) by apply firstn_le_length.
  assert (Hin : forall c, In c (firstn 20 s) -> In c kept).
  { intros c Hc. apply (Permutation_in c (sorted_perm (distance key) kept)).
    change (In c s). rewrite <- (firstn_skipn 20 s). apply in_or_app. left. exact Hc. }
  exists (firstn 20 s).
  replace (Constants.K <? Z.of_nat (length (firstn 20 s))) with false
    by (symmetry; apply Z.ltb_ge; unfold Constants.K; lia).
  split; [reflexivity|]. split; [|split; [exact Hlen | split]].
  - apply List.Forall_forall. intros c Hc. apply Hin, List.filter_In in Hc as [_ Hc].
    unfold ID.eq in Hc. apply negb_true_iff, Z.eqb_neq in Hc. exact Hc.
  - assert (Hs : StronglySorted (key_le (distance key)) (firstn 20 s ++ skipn 20 s)).
    { rewrite firstn_skipn. apply sorted_strongly. }
    apply StronglySorted_app in Hs. tauto.
  - intros c Hc. apply Hin, List.filter_In in Hc as [Hc _]. exact Hc.
Qed.

(** X13: the seeding of [lookup] never raises.  It reads at most K seed
    contacts, none with our ID, in the order of their distance to the key,
    and queries the first three; each queried contact is appended to the
    closer list when it is strictly closer to the key than we are and to the
    further list otherwise; the seed contacts from index 4 on are appended to
    the further list after them; the node is left as it is. *)
Theorem lookup_seed_splits_the_queried_contacts (self : Router.t) (key : ID.t) :
  let our := Contact.id (Node.our_contact (Router.node self)) in
  let closer_than_us := fun i => Z.lxor (Contact.id i) key <? Z.lxor our key in
  exists all_nodes,
    snd (Router.lookup_seed self key) = Ok (all_nodes, firstn 3 all_nodes)
    /\ (length all_nodes <= 20)%nat
    /\ Forall (fun c => Contact.id c <> our) all_nodes
    /\ StronglySorted (key_le (distance key)) all_nodes
    /\ (forall c, In c all_nodes ->
          In c (BucketList.contacts (Node.bucket_list (Router.node self))))
    /\ Router.node (fst (Router.lookup_seed self key)) = Router.node self
    /\ Router.closer_contacts (fst (Router.lookup_seed self key))
       = Router.closer_contacts self
           ++ List.filter closer_than_us (firstn 3 all_nodes)
    /\ Router.further_contacts (fst (Router.lookup_seed self key))
       = (Router.further_contacts self
            ++ List.filter (fun i => negb (closer_than_us i)) (firstn 3 all_nodes))
           ++ skipn 4 all_nodes.
Proof.
  intros our closer_than_us.
  destruct (get_close_contacts_facts (Node.bucket_list (Router.node self)) key our)
    as (l & Hl & Hex & Hlen & Hs & Hin).
  exists l. rewrite (lookup_seed_lists self key l Hl). cbn [fst snd Router.node
    Router.closer_contacts Router.further_contacts].
  repeat split; assumption.
Qed.

(** X14: [get_closest_nodes] returns the contacts of the bucket, all of them
    and each as often as the bucket holds it, in the order of their distance
    to the key; contacts at the same distance keep their order. *)
Theorem get_closest_nodes_sorts_the_bucket (key : ID.t) (bucket : KBucket.t) :
  Permutation (Router.get_closest_nodes key bucket) (KBucket.contacts bucket)
  /\ StronglySorted (key_le (distance key)) (Router.get_closest_nodes key bucket)
  /\ (forall c d,
         nth_error (Router.get_closest_nodes key bucket) 0 = Some c ->
         In d (KBucket.contacts bucket) ->
         distance key c <= distance key d)
  /\ (forall k,
         List.filter (fun c => distance key c =? k) (Router.get_closest_nodes key bucket)
         = List.filter (fun c => distance key c =? k) (KBucket.contacts bucket)).
Proof.
  unfold Router.get_closest_nodes.
  change (fun c : Contact.t => Z.lxor (Contact.id c) key) with (distance key).
  pose proof (sorted_perm (distance key) (KBucket.contacts bucket)) as Hp.
  pose proof (sorted_strongly (distance key) (KBucket.contacts bucket)) as Hs.
  split; [exact Hp|]. split; [exact Hs|]. split; [|intros k; apply sorted_stable].
  intros c d Hc Hd. apply (Permutation_in _ (Permutation_sym Hp)) in Hd.
  destruct (Py.sorted (distance key) (KBucket.contacts bucket)) as [|c' l]; [discriminate|].
  cbn in Hc. injection Hc as ->. apply StronglySorted_inv in Hs as [_ Hall].
  destruct Hd as [<- | Hd]; [unfold key_le; lia|].
  rewrite List.Forall_forall in Hall. exact (Hall d Hd).
Qed.

End SeedFacts.

(** ** The handlers of a node *)

Section NodeHandlers.

Lemma table5_reachable : reachable ID.mid Scenario.table5.
Proof.
  apply add_contacts_reachable; [constructor|].
  apply List.Forall_forall. intros c Hc. apply in_map_iff in Hc as (i & <- & Hi).
  apply in_map_iff in Hi as (k & <- & Hk). apply in_seq in Hk.
  unfold ID.valid, ID.MIN_ID, ID.MAX_ID. simpl Contact.id. lia.
Qed.

(** [add_contact] for a sender that is not us, on the list of a node. *)
Lemma add_sender (depth : nat) (now : Z) (our : ID.t) (bl : BucketList.t) (sender : Contact.t) :
  reachable our bl ->
  ID.valid (Contact.id sender) ->
  Contact.id sender <> our ->
  reachable our (fst (BucketList.add_contact (S (S depth)) now bl sender))
  /\ match snd (BucketList.add_contact (S (S depth)) now bl sender) with
     | Ok _ =>
         In (Contact.id sender)
           (ids (fst (BucketList.add_contact (S (S depth)) now bl sender)))
     | Raise e => e = NameError \/ e = AttributeError
     end.
Proof.
  intros Hr Hv Hne. split; [apply reachable_add; assumption|].
  pose proof (reachable_table_ok _ _ Hr) as Hok.
  assert (Hour : ID.eq (BucketList.our_id bl) (Contact.id sender) = false).
  { unfold ID.eq. rewrite (reachable_our_id _ _ Hr). apply Z.eqb_neq. congruence. }
  destruct (add_contact_spec (S (S depth)) now bl sender Hok Hv) as (_ & _ & _ & H4).
  destruct (add_contact_outcome depth now bl sender Hok Hv Hour) as [E | [E | E]];
    rewrite E in *; [exact (H4 tt eq_refl) | left | right]; reflexivity.
Qed.

(** X15: FIND_NODE on a node whose bucket list was built by [add_contact]
    calls.  From a sender with our ID it raises [SendingQueryToSelfError] and
    changes nothing.  From any other sender it leaves our contact and the two
    storages as they are; when it returns, the answer is a list of at most K
    contacts of the bucket list, none with the ID of the sender, in the order
    of their distance to the key, with no value, and the ID of the sender is
    in the bucket list; when it raises, the error is that of the eviction
    branch of [add_contact]. *)
Theorem find_node_answers_without_the_sender
    (depth : nat) (now : Z) (n : Node.t) (key : ID.t) (sender : Contact.t) :
  reachable (Contact.id (Node.our_contact n)) (Node.bucket_list n) ->
  ID.valid (Contact.id sender) ->
  (Contact.id sender = Contact.id (Node.our_contact n) ->
   Node.find_node (S (S depth)) now n key sender = (n, Raise SendingQueryToSelfError))
  /\ (Contact.id sender <> Contact.id (Node.our_contact n) ->
      let n' := fst (Node.find_node (S (S depth)) now n key sender) in
      (Node.our_contact n', Node._storage n', Node.cache_storage n')
      = (Node.our_contact n, Node._storage n, Node.cache_storage n)
      /\ reachable (Contact.id (Node.our_contact n)) (Node.bucket_list n')
      /\ match snd (Node.find_node (S (S depth)) now n key sender) with
         | Ok (l, v) =>
             v = None
             /\ Forall (fun c => Contact.id c <> Contact.id sender) l
             /\ Z.of_nat (length l) <= Constants.K
             /\ StronglySorted (key_le (distance key)) l
             /\ (forall c, In c l -> In c (BucketList.contacts (Node.bucket_list n')))
             /\ In (Contact.id sender) (ids (Node.bucket_list n'))
         | Raise e => e = NameError \/ e = AttributeError
         end).
Proof.
  intros Hr Hv. split.
  - intros E. unfold Node.find_node, ID.eq. rewrite E, Z.eqb_refl. reflexivity.
  - intros Hne. unfold Node.find_node, ID.eq, Node.send_key_values_if_new_contact.
    replace (Contact.id sender =? Contact.id (Node.our_contact n)) with false
      by (symmetry; apply Z.eqb_neq; exact Hne).
    destruct (add_sender depth now _ _ sender Hr Hv Hne) as [Hr' Hres].
    destruct (BucketList.add_contact (S (S depth)) now (Node.bucket_list n) sender)
      as [bl [u|e]]; cbn [fst snd Node.with_bucket_list Node.our_contact Node._storage
                            Node.cache_storage Node.bucket_list] in *.
    + split; [reflexivity|]. split; [exact Hr'|].
      destruct (get_close_contacts_facts bl key (Contact.id sender))
        as (l & -> & Hex & Hlen & Hs & Hin).
      cbn [bind]. repeat split; try assumption. unfold Constants.K. lia.
    + split; [reflexivity|]. split; [exact Hr' | exact Hres].
Qed.

Lemma find_node_answers_without_the_sender_witness :
  (Contact.id (Scenario.contact 9) = Contact.id (Node.our_contact Scenario.node5) ->
   Node.find_node 2 30 Scenario.node5 4 (Scenario.contact 9)
   = (Scenario.node5, Raise SendingQueryToSelfError))
  /\ (Contact.id (Scenario.contact 9) <> Contact.id (Node.our_contact Scenario.node5) ->
      let n' := fst (Node.find_node 2 30 Scenario.node5 4 (Scenario.contact 9)) in
      (Node.our_contact n', Node._storage n', Node.cache_storage n')
      = (Node.our_contact Scenario.node5, Node._storage Scenario.node5,
         Node.cache_storage Scenario.node5)
      /\ reachable (Contact.id (Node.our_contact Scenario.node5)) (Node.bucket_list n')
      /\ match snd (Node.find_node 2 30 Scenario.node5 4 (Scenario.contact 9)) with
         | Ok (l, v) =>
             v = None
             /\ Forall (fun c => Contact.id c <> Contact.id (Scenario.contact 9)) l
             /\ Z.of_nat (length l) <= Constants.K
             /\ StronglySorted (key_le (distance 4)) l
             /\ (forall c, In c l -> In c (BucketList.contacts (Node.bucket_list n')))
             /\ In (Contact.id (Scenario.contact 9)) (ids (Node.bucket_list n'))
         | Raise e => e = NameError \/ e = AttributeError
         end).
Proof.
  apply (find_node_answers_without_the_sender 0 30 Scenario.node5 4 (Scenario.contact 9)).
  - exact table5_reachable.
  - unfold ID.valid, ID.MIN_ID, ID.MAX_ID. simpl. lia.
Defined.

End NodeHandlers.

(** ** Storing and finding a value *)

Section NodeStorage.

(** X16: what [set] of the virtual storage does to [contains]: the key that
    was set is contained, whatever the expiration time, every other key is
    contained as before; the value last set for a key is the one the
    dictionary holds. *)
Theorem virtual_storage_contains_what_was_set
    (s : VirtualStorage.t) (key key' : ID.t) (value : string) (expiration : Z) :
  VirtualStorage.contains (VirtualStorage.set s key value expiration) key'
  = (key' =? key) || VirtualStorage.contains s key'
  /\ VirtualStorage._store (VirtualStorage.set s key value expiration) !! key
     = Some value.
Proof.
  unfold VirtualStorage.contains, VirtualStorage.set. cbn [VirtualStorage._store].
  split; [|apply lookup_insert_eq].
  destruct (Z.eqb_spec key' key) as [-> | Hne].
  - rewrite lookup_insert_eq. reflexivity.
  - rewrite lookup_insert_ne by congruence. reflexivity.
Qed.

(** X17: FIND_VALUE from a sender that is not us never changes the node and
    never returns a value.  It returns the closest contacts (at most K, none
    with the ID of the sender, in the order of their distance to the key)
    exactly when neither the storage nor the cache storage contains the key;
    it raises [TypeError], from [get] of the virtual storage, when one of them
    contains the key, and [AttributeError] when the storage does not contain
    it and the node has no cache storage. *)
Theorem find_value_never_returns_a_value (n : Node.t) (key : ID.t) (sender : Contact.t) :
  Contact.id sender <> Contact.id (Node.our_contact n) ->
  fst (Node.find_value n key sender) = n
  /\ match snd (Node.find_value n key sender) with
     | Ok (contacts, v) =>
         v = None
         /\ VirtualStorage.contains (Node._storage n) key = false
         /\ (exists cache, Node.cache_storage n = Some cache
                           /\ VirtualStorage.contains cache key = false)
         /\ exists l,
              contacts = Some l
              /\ Forall (fun c => Contact.id c <> Contact.id sender) l
              /\ Z.of_nat (length l) <= Constants.K
              /\ StronglySorted (key_le (distance key)) l
              /\ (forall c, In c l -> In c (BucketList.contacts (Node.bucket_list n)))
     | Raise e =>
         (e = TypeError
          /\ (VirtualStorage.contains (Node._storage n) key = true
              \/ exists cache, Node.cache_storage n = Some cache
                               /\ VirtualStorage.contains cache key = true))
         \/ (e = AttributeError
             /\ VirtualStorage.contains (Node._storage n) key = false
             /\ Node.cache_storage n = None)
     end.
Proof.
  intros Hne. unfold Node.find_value, ID.eq, Node.send_key_values_if_new_contact.
  replace (Contact.id sender =? Contact.id (Node.our_contact n)) with false
    by (symmetry; apply Z.eqb_neq; exact Hne).
  destruct (VirtualStorage.contains (Node._storage n) key) eqn:Es.
  { cbn. split; [reflexivity|]. left. split; [reflexivity | left; reflexivity]. }
  destruct (Node.cache_storage n) as [cache|] eqn:Ec.
  2:{ cbn. split; [reflexivity|]. right. repeat split; reflexivity. }
  destruct (VirtualStorage.contains cache key) eqn:Ek.
  { cbn. split; [reflexivity|]. left. split; [reflexivity|]. right.
    exists cache. split; [reflexivity | exact Ek]. }
  cbn [fst snd]. split; [reflexivity|].
  destruct (get_close_contacts_facts (Node.bucket_list n) key (Contact.id sender))
    as (l & -> & Hex & Hlen & Hs & Hin).
  cbn [bind]. split; [reflexivity|]. split; [reflexivity|].
  split; [exists cache; split; [reflexivity | exact Ek]|].
  exists l. repeat split; try assumption. unfold Constants.K. lia.
Qed.

Lemma find_value_never_returns_a_value_witness :
  fst (Node.find_value Scenario.node5 4 (Scenario.contact 2)) = Scenario.node5
  /\ match snd (Node.find_value Scenario.node5 4 (Scenario.contact 2)) with
     | Ok (contacts, v) =>
         v = None
         /\ VirtualStorage.contains (Node._storage Scenario.node5) 4 = false
         /\ (exists cache, Node.cache_storage Scenario.node5 = Some cache
                           /\ VirtualStorage.contains cache 4 = false)
         /\ exists l,
              contacts = Some l
              /\ Forall (fun c => Contact.id c <> Contact.id (Scenario.contact 2)) l
              /\ Z.of_nat (length l) <= Constants.K
              /\ StronglySorted (key_le (distance 4)) l
              /\ (forall c, In c l ->
                    In c (BucketList.contacts (Node.bucket_list Scenario.node5)))
     | Raise e =>
         (e = TypeError
          /\ (VirtualStorage.contains (Node._storage Scenario.node5) 4 = true
              \/ exists cache, Node.cache_storage Scenario.node5 = Some cache
                               /\ VirtualStorage.contains cache 4 = true))
         \/ (e = AttributeError
             /\ VirtualStorage.contains (Node._storage Scenario.node5) 4 = false
             /\ Node.cache_storage Scenario.node5 = None)
     end.
Proof.
  apply (find_value_never_returns_a_value Scenario.node5 4 (Scenario.contact 2)).
  vm_compute. discriminate.
Defined.

(** X18: STORE on a node whose bucket list was built by [add_contact] calls.
    From a sender with our ID it raises [SenderIsSelfError] and changes
    nothing.  From any other sender, when it returns the ID of the sender is
    in the bucket list and the value is set under the key, in the cache
    storage with the given expiration time when [is_cached], and else in the
    storage with [EXPIRATION_TIME_SEC], the other storage staying as it is;
    when it raises, both storages stay as they are, and the error is
    [AttributeError] or [NameError]. *)
Theorem store_sets_the_value_in_one_storage
    (depth : nat) (now : Z) (n : Node.t) (key : ID.t) (sender : Contact.t)
    (val : string) (is_cached : bool) (expiration : Z) :
  reachable (Contact.id (Node.our_contact n)) (Node.bucket_list n) ->
  ID.valid (Contact.id sender) ->
  (Contact.id sender = Contact.id (Node.our_contact n) ->
   Node.store (S (S depth)) now n key sender val is_cached expiration
   = (n, Raise SenderIsSelfError))
  /\ (Contact.id sender <> Contact.id (Node.our_contact n) ->
      let n' := fst (Node.store (S (S depth)) now n key sender val is_cached expiration) in
      Node.our_contact n' = Node.our_contact n
      /\ reachable (Contact.id (Node.our_contact n)) (Node.bucket_list n')
      /\ match snd (Node.store (S (S depth)) now n key sender val is_cached expiration) with
         | Ok _ =>
             In (Contact.id sender) (ids (Node.bucket_list n'))
             /\ if is_cached
                then Node._storage n' = Node._storage n
                     /\ exists cache,
                          Node.cache_storage n = Some cache
                          /\ Node.cache_storage n'
                             = Some (VirtualStorage.set cache key val expiration)
                else Node.cache_storage n' = Node.cache_storage n
                     /\ Node._storage n'
                        = VirtualStorage.set (Node._storage n) key val
                            Constants.EXPIRATION_TIME_SEC
         | Raise e =>
             Node._storage n' = Node._storage n
             /\ Node.cache_storage n' = Node.cache_storage n
             /\ (e = NameError \/ e = AttributeError)
         end).
Proof.
  intros Hr Hv. split.
  - intros E. unfold Node.store, ID.eq. rewrite E, Z.eqb_refl. reflexivity.
  - intros Hne. unfold Node.store, ID.eq, Node.send_key_values_if_new_contact.
    replace (Contact.id sender =? Contact.id (Node.our_contact n)) with false
      by (symmetry; apply Z.eqb_neq; exact Hne).
    destruct (add_sender depth now _ _ sender Hr Hv Hne) as [Hr' Hres].
    destruct (BucketList.add_contact (S (S depth)) now (Node.bucket_list n) sender)
      as [bl [u|e]]; cbn [fst snd] in *.
    + destruct is_cached.
      * cbn [Node.with_bucket_list Node.cache_storage].
        destruct (Node.cache_storage n) as [cache|] eqn:Ec;
          cbn [fst snd Node.our_contact Node._storage Node.cache_storage
                 Node.bucket_list Node.with_bucket_list].
        -- split; [reflexivity|]. split; [exact Hr'|]. split; [exact Hres|].
           split; [reflexivity|]. exists cache. split; reflexivity.
        -- split; [reflexivity|]. split; [exact Hr'|]. split; [reflexivity|].
           split; [exact Ec | right; reflexivity].
      * cbn [fst snd Node.our_contact Node._storage Node.cache_storage
               Node.bucket_list Node.with_bucket_list].
        split; [reflexivity|]. split; [exact Hr'|]. split; [exact Hres|].
        split; reflexivity.
    + cbn [fst snd Node.our_contact Node._storage Node.cache_storage
             Node.bucket_list Node.with_bucket_list].
      split; [reflexivity|]. split; [exact Hr'|]. split; [reflexivity|].
      split; [reflexivity | exact Hres].
Qed.

Lemma store_sets_the_value_in_one_storage_witness :
  (Contact.id (Scenario.contact 9) = Contact.id (Node.our_contact Scenario.node5) ->
   Node.store 2 30 Scenario.node5 4 (Scenario.contact 9) "v" false 0
   = (Scenario.node5, Raise SenderIsSelfError))
  /\ (Contact.id (Scenario.contact 9) <> Contact.id (Node.our_contact Scenario.node5) ->
      let n' := fst (Node.store 2 30 Scenario.node5 4 (Scenario.contact 9) "v" false 0) in
      Node.our_contact n' = Node.our_contact Scenario.node5
      /\ reachable (Contact.id (Node.our_contact Scenario.node5)) (Node.bucket_list n')
      /\ match snd (Node.store 2 30 Scenario.node5 4 (Scenario.contact 9) "v" false 0) with
         | Ok _ =>
             In (Contact.id (Scenario.contact 9)) (ids (Node.bucket_list n'))
             /\ if false
                then Node._storage n' = Node._storage Scenario.node5
                     /\ exists cache,
                          Node.cache_storage Scenario.node5 = Some cache
                          /\ Node.cache_storage n'
                             = Some (VirtualStorage.set cache 4 "v" 0)
                else Node.cache_storage n' = Node.cache_storage Scenario.node5
                     /\ Node._storage n'
                        = VirtualStorage.set (Node._storage Scenario.node5) 4 "v"
                            Constants.EXPIRATION_TIME_SEC
         | Raise e =>
             Node._storage n' = Node._storage Scenario.node5
             /\ Node.cache_storage n' = Node.cache_storage Scenario.node5
             /\ (e = NameError \/ e = AttributeError)
         end).
Proof.
  apply (store_sets_the_value_in_one_storage 0 30 Scenario.node5 4 (Scenario.contact 9)
           "v" false 0).
  - exact table5_reachable.
  - unfold ID.valid, ID.MIN_ID, ID.MAX_ID. simpl. lia.
Defined.

(** X19: a value that STORE has set in the storage is not read back by
    FIND_VALUE: after a STORE that returned (not cached), FIND_VALUE for the
    same key, from any sender that is not us, raises [TypeError] and leaves
    the node as it is. *)
Theorem find_value_raises_on_a_stored_key
    (depth : nat) (now : Z) (n n' : Node.t) (key : ID.t) (sender sender' : Contact.t)
    (val : string) (expiration : Z) :
  Node.store depth now n key sender val false expiration = (n', Ok tt) ->
  Contact.id sender' <> Contact.id (Node.our_contact n) ->
  Node.find_value n' key sender' = (n', Raise TypeError).
Proof.
  unfold Node.store, Node.send_key_values_if_new_contact. intros Hs Hne.
  destruct (ID.eq (Contact.id sender) _); [discriminate|].
  destruct (BucketList.add_contact depth now (Node.bucket_list n) sender) as [bl [u|e]];
    [|discriminate].
  injection Hs as <-. unfold Node.find_value, ID.eq, Node.send_key_values_if_new_contact.
  cbn [Node.our_contact Node._storage Node.with_bucket_list].
  replace (Contact.id sender' =? Contact.id (Node.our_contact n)) with false
    by (symmetry; apply Z.eqb_neq; exact Hne).
  unfold VirtualStorage.contains, VirtualStorage.set. cbn [VirtualStorage._store].
  rewrite lookup_insert_eq. reflexivity.
Qed.

Lemma find_value_raises_on_a_stored_key_witness :
  Node.find_value
    (fst (Node.store 2 30 Scenario.empty_node 4 (Scenario.contact 9) "v" false 0))
    4 (Scenario.contact 7)
  = (fst (Node.store 2 30 Scenario.empty_node 4 (Scenario.contact 9) "v" false 0),
     Raise TypeError).
Proof.
  apply (find_value_raises_on_a_stored_key 2 30 Scenario.empty_node _ 4
           (Scenario.contact 9) (Scenario.contact 7) "v" 0).
  - vm_compute. reflexivity.
  - vm_compute. discriminate.
Defined.

End NodeStorage.

(** ** Distances and the contacts a query finds *)

Section Queries.

(** X20: the XOR of two IDs is itself in the range of an ID, and two IDs at
    the same distance to a key are the same ID: sorting by distance to a key
    never ties two different IDs. *)
Theorem xor_distance_stays_an_id_and_tells_ids_apart (a b key : ID.t) :
  ID.valid a -> ID.valid b -> ID.valid key ->
  ID.valid (ID.xor a key)
  /\ (ID.xor a key = ID.xor b key -> a = b)
  /\ ID.xor (ID.xor a key) key = a.
Proof.
  intros Ha Hb Hk. split; [apply xor_valid; assumption|]. unfold ID.xor. split.
  - intros E. apply (f_equal (fun z => Z.lxor z key)) in E.
    rewrite !Z.lxor_assoc, Z.lxor_nilpotent, !Z.lxor_0_r in E. exact E.
  - rewrite Z.lxor_assoc, Z.lxor_nilpotent, Z.lxor_0_r. reflexivity.
Qed.

Lemma xor_distance_stays_an_id_and_tells_ids_apart_witness :
  ID.valid (ID.xor 12 5)
  /\ (ID.xor 12 5 = ID.xor 9 5 -> 12 = 9)
  /\ ID.xor (ID.xor 12 5) 5 = 12.
Proof.
  apply (xor_distance_stays_an_id_and_tells_ids_apart 12 9 5);
    unfold ID.valid, ID.MIN_ID, ID.MAX_ID; lia.
Defined.

(** [get_close_contacts] on a list of at most K contacts returns all of them
    that are not excluded. *)
Lemma get_close_contacts_all (self : BucketList.t) (key exclude : ID.t) :
  (length (BucketList.contacts self) <= 20)%nat ->
  exists l,
    BucketList.get_close_contacts self key exclude = Ok l
    /\ Permutation l
         (List.filter (fun c => negb (ID.eq (Contact.id c) exclude))
            (BucketList.contacts self)).
Proof.
  intros Hlen. unfold BucketList.get_close_contacts, BucketList.contacts in *.
  rewrite flat_map_filter.
  set (kept := List.filter _ (flat_map KBucket.contacts (BucketList.buckets self))).
  set (s := Py.sorted _ kept).
  assert (Hk : (length s <= 20)%nat).
  { unfold s. rewrite sorted_length. unfold kept.
    etransitivity; [apply filter_length_le | exact Hlen]. }
  change (Z.to_nat Constants.K) with 20%nat. rewrite (firstn_all2 (n := 20) s) by exact Hk.
  replace (Constants.K <? Z.of_nat (length s)) with false
    by (symmetry; apply Z.ltb_ge; unfold Constants.K; lia).
  exists s. split; [reflexivity | apply sorted_perm].
Qed.

(** X21: a contact that [add_contact] has added is found: when [add_contact]
    returns on a bucket list built by [add_contact] calls that then holds at
    most K contacts, [get_close_contacts], for every key and every excluded ID
    but that of the contact, returns a list with a contact of that ID. *)
Theorem an_added_contact_is_found_by_get_close_contacts
    (our_id : ID.t) (depth : nat) (now : Z) (self : BucketList.t) (c : Contact.t)
    (key exclude : ID.t) :
  reachable our_id self ->
  ID.valid (Contact.id c) ->
  snd (BucketList.add_contact depth now self c) = Ok tt ->
  (length (BucketList.contacts (fst (BucketList.add_contact depth now self c))) <= 20)%nat ->
  exclude <> Contact.id c ->
  exists l,
    BucketList.get_close_contacts (fst (BucketList.add_contact depth now self c))
      key exclude = Ok l
    /\ In (Contact.id c) (map Contact.id l).
Proof.
  intros Hr Hv Hok Hlen Hex.
  destruct (add_contact_spec depth now self c (reachable_table_ok _ _ Hr) Hv)
    as (_ & _ & _ & H4).
  specialize (H4 tt Hok). unfold ids in H4. apply in_map_iff in H4 as (c' & Hid & Hin).
  destruct (get_close_contacts_all _ key exclude Hlen) as (l & Hl & Hp).
  exists l. split; [exact Hl|]. apply in_map_iff. exists c'. split; [exact Hid|].
  apply (Permutation_in _ (Permutation_sym Hp)). apply List.filter_In.
  split; [exact Hin|]. unfold ID.eq. apply negb_true_iff, Z.eqb_neq. congruence.
Qed.

Lemma an_added_contact_is_found_by_get_close_contacts_witness :
  exists l,
    BucketList.get_close_contacts
      (fst (BucketList.add_contact 2 30 Scenario.table5 (Scenario.contact 40)))
      7 ID.max = Ok l
    /\ In (Contact.id (Scenario.contact 40)) (map Contact.id l).
Proof.
  apply (an_added_contact_is_found_by_get_close_contacts ID.mid 2 30 Scenario.table5
           (Scenario.contact 40) 7 ID.max).
  - exact table5_reachable.
  - unfold ID.valid, ID.MIN_ID, ID.MAX_ID. simpl. lia.
  - vm_compute. reflexivity.
  - vm_compute. lia.
  - vm_compute. discriminate.
Defined.

End Queries.
